(** * SecureEpilinker: link configuration, precision planner and engine life cycle

    Shallow embedding of [src/include/epilink_input.cpp] (EpilinkConfig,
    precision planner, [hw_size]) and of the parts of
    [src/include/secure_epilinker.cpp] that decide the threshold bits and the
    engine's build/setup flags.  [size_t] arithmetic is 64-bit unsigned and is
    written out with its wrap-around; the circuit word [CircUnit] has
    [BitLen] bits. *)

From Stdlib Require Import ZArith List String Bool Lia QArith Qround Permutation.
From Stdlib Require Import SpecFloat.
Import ListNotations.
Open Scope Z_scope.

(** ** Machine integers *)

Module SizeT.
Definition width : Z := 64.
Definition modulus : Z := 2 ^ width.
Definition wrap (x : Z) : Z := x mod modulus.
Definition add (a b : Z) : Z := wrap (a + b).
Definition sub (a b : Z) : Z := wrap (a - b).
Definition mul (a b : Z) : Z := wrap (a * b).
(** a value of type [size_t] *)
Definition valid (x : Z) : Prop := 0 <= x < modulus.
End SizeT.

(** ** Numeric primitives *)

(** Modelled from the spec: [ceil_log2] of [math.h] (not in the sources):
    the smallest [k] with [2^k >= n]. *)
Definition ceil_log2 (n : Z) : Z := Z.log2_up n.

(** Modelled from the spec: [ceil_log2_min1] of [math.h] (not in the
    sources): [ceil_log2], but returning 1 for [n <= 1]. *)
Definition ceil_log2_min1 (n : Z) : Z := Z.max 1 (Z.log2_up n).

(** [size_t hw_size(size_t size) { return ceil_log2_min1(size+1); }] *)
Definition hw_size (size : Z) : Z := ceil_log2_min1 (SizeT.add size 1).

(** ** Fields and link configuration *)

Inductive FieldComparator := DICE | BINARY.

Definition comparator_eqb (a b : FieldComparator) : bool :=
  match a, b with
  | DICE, DICE | BINARY, BINARY => true
  | _, _ => false
  end.

(** [ML_Field]; a weight is a double, kept as its exact rational value *)
Record ML_Field := mkField {
  name : string;
  weight : Q;
  comparator : FieldComparator;
  bitsize : Z
}.

Definition FieldName := string.
(** [std::set<FieldName>], iterated in order *)
Definition IndexSet := list FieldName.
(** [std::map<FieldName, ML_Field>], iterated in key order *)
Definition FieldMap := list (FieldName * ML_Field).

(** [map::at]: [None] is the [std::out_of_range] it throws *)
Fixpoint at_key (m : FieldMap) (k : FieldName) : option ML_Field :=
  match m with
  | [] => None
  | (k', v) :: m' => if String.eqb k k' then Some v else at_key m' k
  end.

Record EpilinkConfig := mkConfig {
  fields : FieldMap;
  exchange_groups : list IndexSet;
  threshold : Q;
  tthreshold : Q;
  matching_mode : bool;
  bitlen : Z;
  nfields : Z;
  max_weight : Q;
  dice_prec : Z;
  weight_prec : Z
}.

(** Exceptions thrown by the code, and failed assertions *)
Inductive exn :=
  | invalid_argument (msg : string)
  | out_of_range
  | runtime_error (msg : string)
  | assertion_failed
  | undefined_behaviour.

Definition result (A : Type) := (exn + A)%type.
Definition ret {A} (a : A) : result A := inr a.
Definition raise {A} (e : exn) : result A := inl e.
Definition bind {A B} (m : result A) (k : A -> result B) : result B :=
  match m with inl e => inl e | inr a => k a end.
Notation "x <- m ;; k" := (bind m (fun x => k)) (at level 61, m at next level, right associativity).

Definition msg_distinct : string := "Exchange groups must be distinct!".
Definition msg_comparator : string := "Cannot compare field of type with field of type".
Definition msg_bitsize : string := "Cannot compare field of bitsize with field of bitsize".
Definition msg_overflow : string :=
  "Given dice and weight precision would potentially cause overflows in current bitlen!".

(** Modelled from the spec: [sel::max_element(fields, f -> f.second.weight)]
    of [util.h] (not in the sources): the largest weight, the first one on
    ties ([std::max_element]); an empty map has no element, which the
    constructor does not guard (0 here). *)
Definition max_weight_step (m : Q) (g : FieldName * ML_Field) : Q :=
  if Qlt_le_dec m (weight (snd g)) then weight (snd g) else m.

Definition max_element_weight (fs : FieldMap) : Q :=
  match fs with
  | [] => 0%Q
  | (_, f) :: fs' => fold_left max_weight_step fs' (weight f)
  end.

(** the loop [for (f : fields) if (DICE) max_bm_size = max(max_bm_size, bitsize)] *)
Definition max_bm_size (fs : FieldMap) : Z :=
  fold_left (fun m f =>
      match comparator (snd f) with
      | DICE => Z.max m (bitsize (snd f))
      | BINARY => m
      end) fs 0.

(** [ceil_log2(nfields*nfields)] *)
Definition nfields_bits (nf : Z) : Z := ceil_log2 (SizeT.mul nf nf).

Definition default_dice_prec (fs : FieldMap) : Z :=
  SizeT.sub (16 - 1) (hw_size (max_bm_size fs)).

Definition default_weight_prec (bl nf dp : Z) : Z :=
  SizeT.sub (SizeT.sub bl (nfields_bits nf)) dp / 2.

(** the expression of [assert (dice_prec + 2*weight_prec + ceil_log2(n*n) <= bitlen)] *)
Definition precision_assert (bl nf dp wp : Z) : bool :=
  SizeT.add (SizeT.add dp (SizeT.mul 2 wp)) (nfields_bits nf) <=? bl.

(** Sanity checks of one exchange group; [xgunion] is threaded through *)
Fixpoint check_group_fields (fs : FieldMap) (f0 : ML_Field) (xgunion : IndexSet)
    (group : IndexSet) : result IndexSet :=
  match group with
  | [] => ret xgunion
  | fname :: rest =>
      if existsb (String.eqb fname) xgunion then raise (invalid_argument msg_distinct)
      else
        let xgunion := fname :: xgunion in
        match at_key fs fname with
        | None => raise out_of_range
        | Some f =>
            if negb (comparator_eqb (comparator f) (comparator f0))
            then raise (invalid_argument msg_comparator)
            else if negb (bitsize f =? bitsize f0)
            then raise (invalid_argument msg_bitsize)
            else check_group_fields fs f0 xgunion rest
        end
  end.

Fixpoint check_exchange_groups (fs : FieldMap) (xgunion : IndexSet)
    (groups : list IndexSet) : result unit :=
  match groups with
  | [] => ret tt
  | group :: rest =>
      match group with
      | [] => raise undefined_behaviour (* [*group.cbegin()] of an empty set *)
      | g0 :: _ =>
          match at_key fs g0 with
          | None => raise out_of_range
          | Some f0 =>
              xg <- check_group_fields fs f0 xgunion group ;;
              check_exchange_groups fs xg rest
          end
      end
  end.

(** [EpilinkConfig::EpilinkConfig] *)
Definition make_config (fs : FieldMap) (groups : list IndexSet) (t tt : Q)
    (mm : bool) (bl : Z) : result EpilinkConfig :=
  let nf := Z.of_nat (List.length fs) in
  let dp := default_dice_prec fs in
  let wp := default_weight_prec bl nf dp in
  if negb (precision_assert bl nf dp wp) then raise assertion_failed
  else
    _ <- check_exchange_groups fs [] groups ;;
    ret (mkConfig fs groups t tt mm bl nf (max_element_weight fs) dp wp).

Definition with_precisions (c : EpilinkConfig) (dp wp : Z) : EpilinkConfig :=
  mkConfig (fields c) (exchange_groups c) (threshold c) (tthreshold c)
    (matching_mode c) (bitlen c) (nfields c) (max_weight c) dp wp.

(** [EpilinkConfig::set_precisions] *)
Definition set_precisions (c : EpilinkConfig) (dp wp : Z) : result EpilinkConfig :=
  if SizeT.add (SizeT.add dp (SizeT.mul 2 wp)) (nfields_bits (nfields c)) >? bitlen c
  then raise (invalid_argument msg_overflow)
  else ret (with_precisions c dp wp).

(** [EpilinkConfig::set_ideal_precision] *)
Definition set_ideal_precision (c : EpilinkConfig) : result EpilinkConfig :=
  let bits_av := SizeT.sub (bitlen c) (nfields_bits (nfields c)) in
  let dp := bits_av / 3 in
  let wp := dp in
  if bits_av mod 3 =? 1 then set_precisions c (SizeT.add dp 1) wp
  else if bits_av mod 3 =? 2 then set_precisions c dp (SizeT.add wp 1)
  else set_precisions c dp wp.

(** the bit budget, in the integers *)
Definition budget (c : EpilinkConfig) : Prop :=
  dice_prec c + 2 * weight_prec c + ceil_log2 (nfields c * nfields c) <= bitlen c.

(** ** The circuit builder: per-field weight and threshold bits *)

Section Circuit.

(** [rescale_weight] computes with doubles ([llround]); it is a parameter
    here, its binary64 model is [rescale_weight] below. *)
Variable rescale_weight : Q -> Z -> Q -> Z.

(** The public part of [SELCircuit::field_weight]: the type and bitsize checks
    and the rescaled average weight [weight_r]. *)
Definition field_weight_r (c : EpilinkConfig) (ileft iright : FieldName) : result Z :=
  match at_key (fields c) ileft, at_key (fields c) iright with
  | Some fleft, Some fright =>
      if negb (comparator_eqb (comparator fleft) (comparator fright))
      then raise (runtime_error msg_comparator)
      else if negb (bitsize fleft =? bitsize fright)
      then raise (runtime_error msg_bitsize)
      else ret (rescale_weight ((weight fleft + weight fright) / 2)%Q
                  (weight_prec c) (max_weight c))
  | _, _ => raise out_of_range
  end.

End Circuit.

(** ** [rescale_weight] in IEEE binary64 *)

(** a [double]: binary64, 53-bit mantissa, exponent bound 1024; all
    operations round to nearest, ties to even *)
Definition double := spec_float.
Definition ddiv : double -> double -> double := SFdiv 53 1024.
Definition dmul : double -> double -> double := SFmul 53 1024.
(** conversion of an integer to [double] *)
Definition double_of_Z (n : Z) : double := binary_normalize 53 1024 n 0 false.

(** [llround]: the nearest integer, halfway cases away from zero; outside
    the range of [long long] (and for NaN and infinities) the value is
    unspecified, kept as [undefined_behaviour] *)
Definition llround (x : double) : result Z :=
  match x with
  | S754_zero _ => ret 0
  | S754_finite s m e =>
      let a := if 0 <=? e then Z.pos m * 2 ^ e
               else let d := 2 ^ (- e) in
                    if d <=? 2 * (Z.pos m mod d) then Z.pos m / d + 1 else Z.pos m / d in
      let v := if s then - a else a in
      if (- 2 ^ 63 <=? v) && (v <? 2 ^ 63) then ret v else raise undefined_behaviour
  | _ => raise undefined_behaviour
  end.

(** [unsigned long long rescale_weight(Weight weight, size_t prec, Weight max_weight) {
      unsigned long long max_el = (1ULL << prec) - 1ULL;
      return llround((weight/max_weight) * max_el); }]
    [unsigned long long] is 64-bit like [size_t]; a shift by 64 or more is
    undefined; [max_el] is converted to [double] for the product, and the
    [long long] result to [unsigned long long]. *)
Definition rescale_weight (weight : double) (prec : Z) (max_weight : double) : result Z :=
  if prec <? 64 then
    let max_el := SizeT.sub (2 ^ prec) 1 in
    v <- llround (dmul (ddiv weight max_weight) (double_of_Z max_el)) ;;
    ret (SizeT.wrap v)
  else raise undefined_behaviour.




Section Threshold.

(** [BitLen], the width of [CircUnit] and of the arithmetic shares *)
Variable BitLen : Z.

Definition circ_wrap (x : Z) : Z := x mod 2 ^ BitLen.

(** [1 << cfg.dice_prec]: the left operand is the [int] 1, so the result is
    an [int] (32 bits): [2^31] does not fit and becomes [INT_MIN], and a shift
    by 32 or more is undefined. *)
Definition int_shl1 (n : Z) : result Z :=
  if (0 <=? n) && (n <? 31) then ret (2 ^ n)
  else if n =? 31 then ret (- 2 ^ 31)
  else raise undefined_behaviour.

(** the conversion of a double to an integer type truncates toward zero *)
Definition Qtrunc (q : Q) : Z := if Qle_bool 0 q then Qfloor q else - Qfloor (- q).

(** conversion of a double to the unsigned [CircUnit]: undefined unless the
    truncated value is in [[0, 2^BitLen)] *)
Definition to_circ_unit (q : Q) : result Z :=
  let z := Qtrunc q in
  if (0 <=? z) && (z <? 2 ^ BitLen) then ret z else raise undefined_behaviour.

(** [CircUnit T = cfg.threshold * (1 << cfg.dice_prec)]: the [int] is
    converted to double and the product of a double by a power of two is
    exact. *)
Definition threshold_const (t : Q) (dp : Z) : result Z :=
  p <- int_shl1 dp ;;
  to_circ_unit (t * inject_Z p).

(** [set_constants] computes [T] and [Tt]; step 6 of
    [SELCircuit::build_circuit] on the winning quotient [(num, den)]:
    [match = to_bool(T * den) < to_bool(num)], [tmatch] likewise with [Tt];
    the arithmetic product is taken modulo [2^BitLen]. *)
Definition threshold_bits (c : EpilinkConfig) (num den : Z) : result (bool * bool) :=
  T <- threshold_const (threshold c) (dice_prec c) ;;
  Tt <- threshold_const (tthreshold c) (dice_prec c) ;;
  ret (circ_wrap (T * den) <? num, circ_wrap (Tt * den) <? num).


End Threshold.

(** ** Engine facade: the [is_built] / [is_setup] flags *)

Record Engine := mkEngine { is_built : bool; is_setup : bool }.

Definition new_engine : Engine := mkEngine false false.

Definition msg_not_built : string :=
  "Circuit must first be built with build_circuit() before running setup phase.".

(** [SecureEpilinker::build_circuit(const uint32_t)]: the argument is ignored *)
Definition build_circuit (e : Engine) (nvals : Z) : Engine :=
  mkEngine true (is_setup e).

(** [SecureEpilinker::run_setup_phase] *)
Definition run_setup_phase (e : Engine) : result Engine :=
  if negb (is_built e) then raise (runtime_error msg_not_built)
  else ret (mkEngine (is_built e) true).

(** [SecureEpilinker::reset] *)
Definition reset (e : Engine) : Engine := mkEngine false false.

Section Run.

Variables ClientInput ServerInput Output : Type.
(** [selc->set_*_input(input); selc->build_circuit(); party.ExecCircuit()]
    and the decoding of the outputs *)
Variable exec_client : ClientInput -> result Output.
Variable exec_server : ServerInput -> result Output.

(** [SecureEpilinker::run_circuit], after the circuit has been executed *)
Definition run_circuit (e : Engine) (res : result Output) : result (Engine * Output) :=
  r <- res ;;
  ret (mkEngine (is_built e) false, r).

Definition implicit_setup (e : Engine) : result Engine :=
  if negb (is_setup e) then run_setup_phase e else ret e.

(** [SecureEpilinker::run_as_client] *)
Definition run_as_client (e : Engine) (input : ClientInput) : result (Engine * Output) :=
  e' <- implicit_setup e ;;
  run_circuit e' (exec_client input).

(** [SecureEpilinker::run_as_server] *)
Definition run_as_server (e : Engine) (input : ServerInput) : result (Engine * Output) :=
  e' <- implicit_setup e ;;
  run_circuit e' (exec_server input).

End Run.

(** the engine invariant: setup is only ever done on a built circuit *)
Definition engine_inv (e : Engine) : Prop := is_setup e = true -> is_built e = true.

(** ** Spec-side formulations *)

(** the largest bitsize among the set-similarity (DICE) fields, 0 if none *)
Definition max_dice_width (fs : FieldMap) : Z :=
  fold_right Z.max 0
    (map (fun f => bitsize (snd f))
       (filter (fun f => comparator_eqb (comparator (snd f)) DICE) fs)).

(** [hw_bits(w) = ceil_log2(w + 1)], in [size_t], with the [min1] convention *)
Definition hw_bits (w : Z) : Z := ceil_log2_min1 (SizeT.add w 1).

(** Concrete inputs *)
Definition bm_32768 : ML_Field := mkField "bm_1" 1 DICE 32768.
Definition int_1 : ML_Field := mkField "int_1" 1 BINARY 32.
Definition int_only : FieldMap := [("int_1"%string, int_1)].
Definition int_2 : ML_Field := mkField "int_2" 2 BINARY 32.
Definition two_ints : FieldMap := [("int_1"%string, int_1); ("int_2"%string, int_2)].
(** the configuration the constructor builds from [int_only], thresholds
    0.9 and 0.7, bitlen 32 *)
Definition demo_config : EpilinkConfig :=
  mkConfig int_only [] (9 # 10) (7 # 10) false 32 1 1 14 9.

(** ** [SELCircuit::build_circuit], step 1: the field weights *)

(** [std::set::erase(i)] on a set kept as a duplicate-free list: the set
    without [i] and the number of erased elements *)
Definition set_erase (s : IndexSet) (i : FieldName) : IndexSet * Z :=
  if existsb (String.eqb i) s then (remove string_dec i s, 1) else (s, 0).

Fixpoint map_result {A B} (f : A -> result B) (l : list A) : result (list B) :=
  match l with
  | [] => ret []
  | x :: l' => y <- f x ;; ys <- map_result f l' ;; ret (y :: ys)
  end.

Section FieldWeights.

Variable FieldWeight : Type.
(** [best_group_weight(group)] and [field_weight(i, i)] *)
Variable best_group_weight : IndexSet -> result FieldWeight.
Variable single_field_weight : FieldName -> result FieldWeight.

(** [for (i : group) { r = no_x_group.erase(i); if (!r) throw runtime_error(...); }] *)
Fixpoint erase_group (no_x_group : IndexSet) (group : IndexSet) : result IndexSet :=
  match group with
  | [] => ret no_x_group
  | i :: rest =>
      let (s, r) := set_erase no_x_group i in
      if r =? 0 then raise (runtime_error msg_distinct) else erase_group s rest
  end.

(** step 1.1, the loop over [cfg.exchange_groups] *)
Fixpoint group_weights (no_x_group : IndexSet) (groups : list IndexSet)
    : result (list FieldWeight * IndexSet) :=
  match groups with
  | [] => ret ([], no_x_group)
  | group :: rest =>
      w <- best_group_weight group ;;
      no_x_group' <- erase_group no_x_group group ;;
      p <- group_weights no_x_group' rest ;;
      ret (w :: fst p, snd p)
  end.

(** steps 1.1 and 1.2: [no_x_group] starts with all field names; the
    remaining ones get [field_weight(i, i)] *)
Definition field_weights (c : EpilinkConfig) : result (list FieldWeight) :=
  p <- group_weights (map fst (fields c)) (exchange_groups c) ;;
  singles <- map_result single_field_weight (snd p) ;;
  ret (fst p ++ singles).

End FieldWeights.

(** [std::next_permutation] on a [vector<FieldName>] ordered by the
    [operator<] of [std::string]: the next arrangement in lexicographic order
    and [true], or the first (ascending) one and [false].  On [x :: rest]:
    if [rest] has a next arrangement, that one; otherwise [rest] is
    non-increasing and ends up reversed, and [x] is swapped with the smallest
    element of [rest] greater than it. *)
Fixpoint swap_next (x : FieldName) (asc : list FieldName) : option (FieldName * list FieldName) :=
  match asc with
  | [] => None
  | y :: r =>
      if String.ltb x y then Some (y, x :: r)
      else match swap_next x r with
           | Some (z, r') => Some (z, y :: r')
           | None => None
           end
  end.

Fixpoint next_permutation (l : list FieldName) : bool * list FieldName :=
  match l with
  | [] => (false, [])
  | x :: rest =>
      match next_permutation rest with
      | (true, rest') => (true, x :: rest')
      | (false, asc) =>
          match swap_next x asc with
          | Some (y, asc') => (true, y :: asc')
          | None => (false, asc ++ [x])
          end
      end
  end.

Section BestGroupWeight.

(** the [rescale_weight] of [field_weight], as in [field_weight_r] *)
Variable rescale : Q -> Z -> Q -> Z.
Variable c : EpilinkConfig.

(** One round of the [do]-loop of [SELCircuit::best_group_weight]:
    [field_weight(group[i], groupPerm[i])] for [i = 0 .. size-1], in order.
    Only whether it throws is kept; the circuit shares are not modelled. *)
Definition perm_field_weights (group perm : list FieldName) : result unit :=
  _ <- map_result (fun p => field_weight_r rescale c (fst p) (snd p)) (combine group perm) ;;
  ret tt.

(** [do { ... } while (next_permutation(groupPerm.begin(), groupPerm.end()))];
    [fuel] bounds the number of rounds *)
Fixpoint perm_loop (group : list FieldName) (fuel : nat) (perm : list FieldName) : result unit :=
  _ <- perm_field_weights group perm ;;
  match fuel with
  | O => ret tt
  | S fuel' =>
      let (more, perm') := next_permutation perm in
      if more then perm_loop group fuel' perm' else ret tt
  end.

(** [SELCircuit::best_group_weight(group_set)]: [group] and [groupPerm] are
    copies of the set; a set of [n] names has [n!] arrangements, which bounds
    the rounds. *)
Definition best_group_weight (group : IndexSet) : result unit :=
  perm_loop group (fact (List.length group)) group.

(** [field_weight(i, i)] of step 1.2 *)
Definition single_field_weight (i : FieldName) : result unit :=
  _ <- field_weight_r rescale c i i ;; ret tt.

End BestGroupWeight.

(** step 1 of [SELCircuit::build_circuit] with the circuit's own
    [best_group_weight] and [field_weight] *)
Definition build_field_weights (rw : Q -> Z -> Q -> Z) (c : EpilinkConfig) : result (list unit) :=
  field_weights unit (best_group_weight rw c) (single_field_weight rw c) c.

(** ** [SELCircuit::set_constants]: the constant index vector *)

(** [for (i = 0; i != nvals; ++i) numbers.emplace_back(constant(bcirc, i,
    ceil_log2_min1(nvals)))]; a [w]-bit constant holds [i mod 2^w] *)
Definition const_idx (nvals : Z) : list Z :=
  map (fun i => Z.of_nat i mod 2 ^ ceil_log2_min1 nvals) (seq 0 (Z.to_nat nvals)).

(** ** Hamming weight of a [Bitmask] ([std::vector<uint8_t>]) *)

(** [__builtin_popcount] of a byte *)
Definition popcount8 (b : Z) : Z :=
  fold_right Z.add 0 (map (fun k => Z.b2z (Z.testbit b k)) [0; 1; 2; 3; 4; 5; 6; 7]).

(** [CircUnit hw(const Bitmask& bm)]: [n += __builtin_popcount(b)] in [CircUnit] *)
Definition hw (BitLen : Z) (bm : list Z) : Z :=
  fold_left (fun n b => circ_wrap BitLen (n + popcount8 b)) bm 0.

(** [vector<CircUnit> hw(const vector<Bitmask>&)] *)
Definition hw_vec (BitLen : Z) (v : list (list Z)) : list Z := map (hw BitLen) v.

(** ** Inputs *)

(** [optional<Bitmask>] and a database column *)
Definition FieldEntry := option (list Z).
Definition VFieldEntry := list FieldEntry.

Fixpoint lookup {A} (m : list (FieldName * A)) (k : FieldName) : option A :=
  match m with
  | [] => None
  | (k', v) :: m' => if String.eqb k k' then Some v else lookup m' k
  end.

(** Modelled from the spec: [bitbytes] of [util.h] (not in the sources), the
    number of bytes holding [bits] bits *)
Definition bitbytes (bits : Z) : Z := (bits + 7) / 8.

Record EpilinkClientInput := mkClientInput {
  record : list (FieldName * FieldEntry);
  cnvals : Z
}.

Record EpilinkServerInput := mkServerInput {
  database : list (FieldName * VFieldEntry);
  snvals : Z
}.

(** an input share [{val, hw, delta}], one value per SIMD lane *)
Record ValueInput := mkValueInput {
  val : list (list Z);
  hw_share : option (list Z);
  delta : list Z
}.

Definition has_value (e : FieldEntry) : Z := if e then 1 else 0.

(** [entry.value_or(Bitmask(bytesize))] *)
Definition value_or_zero (bytesize : Z) (e : FieldEntry) : list Z :=
  match e with Some v => v | None => repeat 0 (Z.to_nat bytesize) end.

Section Inputs.

Variable BitLen : Z.
(** Modelled from the spec: [check_vector_size] of [util.h] (not in the
    sources) throws on a length mismatch; its exception is left open. *)
Variable shape_mismatch : string -> exn.

Definition check_vector_size {A} (v : list A) (size : Z) (what : string) : result unit :=
  if Z.of_nat (List.length v) =? size then ret tt else raise (shape_mismatch what).

(** [check_vectors_size]: every vector has [size] elements *)
Fixpoint check_vectors_size {A} (vs : list (list A)) (size : Z) (what : string) : result unit :=
  match vs with
  | [] => ret tt
  | v :: vs' => _ <- check_vector_size v size what ;; check_vectors_size vs' size what
  end.

Fixpoint check_columns (db : list (FieldName * VFieldEntry)) (nvals : Z) : result unit :=
  match db with
  | [] => ret tt
  | (k, col) :: db' =>
      _ <- check_vector_size col nvals ("database field " ++ k)%string ;;
      check_columns db' nvals
  end.

(** [EpilinkServerInput::EpilinkServerInput]: [nvals] is the size of the
    first column ([database.cbegin()] of an empty map is undefined) *)
Definition make_server_input (db : list (FieldName * VFieldEntry)) : result EpilinkServerInput :=
  match db with
  | [] => raise undefined_behaviour
  | (_, col) :: _ =>
      let nvals := Z.of_nat (List.length col) in
      _ <- check_columns db nvals ;;
      ret (mkServerInput db nvals)
  end.

(** one field of [SELCircuit::set_real_client_input] *)
Definition client_value_input (nvals : Z) (rec : list (FieldName * FieldEntry))
    (i : FieldName) (f : ML_Field) : result ValueInput :=
  match lookup rec i with
  | None => raise out_of_range
  | Some entry =>
      let bytesize := bitbytes (bitsize f) in
      let value := value_or_zero bytesize entry in
      _ <- check_vector_size value bytesize ("client input byte vector " ++ i)%string ;;
      ret (mkValueInput (repeat value (Z.to_nat nvals))
             (match comparator f with
              | DICE => Some (repeat (hw BitLen value) (Z.to_nat nvals))
              | BINARY => None
              end)
             (repeat (has_value entry) (Z.to_nat nvals)))
  end.

(** [SELCircuit::set_real_client_input], writing [ins[i].client] per field *)
Definition set_real_client_input (c : EpilinkConfig) (nvals : Z) (input : EpilinkClientInput)
    : result (list (FieldName * ValueInput)) :=
  if negb (0 <? nvals) then raise assertion_failed
  else map_result (fun p => v <- client_value_input nvals (record input) (fst p) (snd p) ;;
                            ret (fst p, v)) (fields c).

(** one field of [SELCircuit::set_real_server_input]; the shares read the
    first [nvals] lanes and [entries[j]] for [j < nvals] *)
Definition server_value_input (nvals : Z) (db : list (FieldName * VFieldEntry))
    (i : FieldName) (f : ML_Field) : result ValueInput :=
  match lookup db i with
  | None => raise out_of_range
  | Some entries =>
      let bytesize := bitbytes (bitsize f) in
      let values := map (value_or_zero bytesize) entries in
      _ <- check_vectors_size values bytesize ("server input byte vector " ++ i)%string ;;
      if Z.of_nat (List.length entries) <? nvals then raise undefined_behaviour
      else
        ret (mkValueInput (firstn (Z.to_nat nvals) values)
               (match comparator f with
                | DICE => Some (firstn (Z.to_nat nvals) (hw_vec BitLen values))
                | BINARY => None
                end)
               (map has_value (firstn (Z.to_nat nvals) entries)))
  end.

(** [SELCircuit::set_real_server_input], writing [ins[i].server] per field *)
Definition set_real_server_input (c : EpilinkConfig) (nvals : Z) (input : EpilinkServerInput)
    : result (list (FieldName * ValueInput)) :=
  if negb (0 <? nvals) then raise assertion_failed
  else map_result (fun p => v <- server_value_input nvals (database input) (fst p) (snd p) ;;
                            ret (fst p, v)) (fields c).

(** [set_constants(input.nvals)] takes a [uint32_t] *)
Definition uint32 (x : Z) : Z := x mod 2 ^ 32.

(** [SELCircuit::set_client_input] / [set_server_input], real inputs part *)
Definition set_client_input (c : EpilinkConfig) (input : EpilinkClientInput) :=
  set_real_client_input c (uint32 (cnvals input)) input.

Definition set_server_input (c : EpilinkConfig) (input : EpilinkServerInput) :=
  set_real_server_input c (uint32 (snvals input)) input.

Section LocalServer.

Variable Output : Type.
(** [run_as_server]'s circuit: inputs, [build_circuit()], [ExecCircuit()] *)
Variable exec_server : EpilinkServerInput -> result Output.

(** [LocalServer::run_server] *)
Definition run_server (e : Engine) (data : list (FieldName * VFieldEntry))
    : result (Engine * Output) :=
  match data with
  | [] => raise undefined_behaviour (* [m_data->data.begin()] of an empty map *)
  | (_, col) :: _ =>
      let nvals := Z.of_nat (List.length col) in
      let e1 := build_circuit e nvals in
      e2 <- run_setup_phase e1 ;;
      input <- make_server_input data ;;
      p <- run_as_server EpilinkServerInput Output exec_server e2 input ;;
      ret (reset (fst p), snd p)
  end.

End LocalServer.

End Inputs.

(** ** Lemmas on [size_t] arithmetic *)

Lemma SizeT_modulus_pos : 0 < SizeT.modulus.
Proof. unfold SizeT.modulus, SizeT.width. lia. Qed.

Lemma SizeT_wrap_small x : 0 <= x < SizeT.modulus -> SizeT.wrap x = x.
Proof. intros H. unfold SizeT.wrap. apply Z.mod_small; exact H. Qed.

Lemma SizeT_wrap_valid x : SizeT.valid (SizeT.wrap x).
Proof.
  unfold SizeT.valid, SizeT.wrap. apply Z.mod_pos_bound. apply SizeT_modulus_pos.
Qed.

(** adding back what was subtracted gives the original [size_t] value *)
Lemma SizeT_sub_add a b : SizeT.valid a -> SizeT.add (SizeT.sub a b) b = a.
Proof.
  intros Ha. unfold SizeT.add, SizeT.sub, SizeT.wrap.
  rewrite Z.add_mod_idemp_l by (pose proof SizeT_modulus_pos; lia).
  replace (a - b + b) with a by ring. apply Z.mod_small. exact Ha.
Qed.

Lemma set_precisions_accepts c dp wp :
  SizeT.add (SizeT.add dp (SizeT.mul 2 wp)) (nfields_bits (nfields c)) <= bitlen c ->
  set_precisions c dp wp = inr (with_precisions c dp wp).
Proof.
  intros H. unfold set_precisions.
  destruct (Z.gtb_spec (SizeT.add (SizeT.add dp (SizeT.mul 2 wp)) (nfields_bits (nfields c)))
              (bitlen c)); [lia | reflexivity].
Qed.

Lemma max_bm_size_acc fs m :
  0 <= m ->
  fold_left (fun m f =>
      match comparator (snd f) with
      | DICE => Z.max m (bitsize (snd f))
      | BINARY => m
      end) fs m = Z.max m (max_dice_width fs).
Proof.
  revert m. induction fs as [|[k f] fs IH]; intros m Hm; simpl.
  - unfold max_dice_width. simpl. lia.
  - rewrite IH by (destruct (comparator f); lia). unfold max_dice_width. simpl.
    destruct (comparator f); simpl; fold (max_dice_width fs); lia.
Qed.

Lemma max_bm_size_spec fs : max_bm_size fs = max_dice_width fs.
Proof.
  unfold max_bm_size. rewrite max_bm_size_acc by lia.
  assert (0 <= max_dice_width fs).
  { unfold max_dice_width.
    induction (map _ _) as [|x l IH]; simpl; lia. }
  lia.
Qed.

(** ** C1 *)

(** C1 (code_bug). The bit budget
    [dice_prec + 2*weight_prec + ceil_log2(nfields^2) <= bitlen] does not hold
    for every accepted configuration: with one DICE field of 32768 bits,
    [16 - 1 - hw_size(32768)] wraps around to [2^64 - 1], the constructor
    (including its assertion, evaluated in [size_t]) accepts, and the stored
    precisions break the budget. *)
Theorem C1_budget_broken_by_wraparound :
  make_config [("bm_1"%string, bm_32768)] [] (9 # 10) (7 # 10) false 32
    = inr (mkConfig [("bm_1"%string, bm_32768)] [] (9 # 10) (7 # 10) false 32 1 1
             (2 ^ 64 - 1) 16)
  /\ ~ budget (mkConfig [("bm_1"%string, bm_32768)] [] (9 # 10) (7 # 10) false 32 1 1
                 (2 ^ 64 - 1) 16).
Proof.
  split.
  - vm_compute. reflexivity.
  - unfold budget. simpl. unfold ceil_log2. simpl. lia.
Qed.

(** ** C2 *)

(** C2. The safe-mode planner of the constructor sets
    [dice_prec = 16 - 1 - hw_bits(max_bm_size)], where [max_bm_size] is the
    largest bitsize among the DICE fields and [hw_bits(w) = ceil_log2_min1(w+1)],
    and [weight_prec = (bitlen - ceil_log2(nfields^2) - dice_prec) / 2], all
    in [size_t] arithmetic; [nfields] is the number of fields. *)
Theorem C2_safe_mode_precisions fs groups t tt mm bl c :
  make_config fs groups t tt mm bl = inr c ->
  nfields c = Z.of_nat (List.length fs) /\
  dice_prec c = SizeT.sub (16 - 1) (hw_bits (max_dice_width fs)) /\
  weight_prec c =
    SizeT.sub (SizeT.sub bl (ceil_log2 (SizeT.mul (nfields c) (nfields c)))) (dice_prec c) / 2.
Proof.
  unfold make_config.
  destruct (negb _); [discriminate|].
  destruct (check_exchange_groups fs [] groups); simpl; [discriminate|].
  intros H. injection H as <-. simpl.
  unfold default_dice_prec, hw_bits. rewrite max_bm_size_spec.
  split; [reflexivity | split; reflexivity].
Qed.

Lemma C2_safe_mode_precisions_witness :
  make_config int_only [] (9 # 10) (7 # 10) false 32
    = inr (mkConfig int_only [] (9 # 10) (7 # 10) false 32 1 1 14 9) /\
  (nfields (mkConfig int_only [] (9 # 10) (7 # 10) false 32 1 1 14 9) = 1 /\
   dice_prec (mkConfig int_only [] (9 # 10) (7 # 10) false 32 1 1 14 9)
     = SizeT.sub (16 - 1) (hw_bits (max_dice_width int_only)) /\
   weight_prec (mkConfig int_only [] (9 # 10) (7 # 10) false 32 1 1 14 9) =
     SizeT.sub (SizeT.sub 32 (ceil_log2 (SizeT.mul 1 1))) 14 / 2).
Proof.
  assert (H : make_config int_only [] (9 # 10) (7 # 10) false 32
                = inr (mkConfig int_only [] (9 # 10) (7 # 10) false 32 1 1 14 9))
    by (vm_compute; reflexivity).
  split; [exact H|].
  exact (C2_safe_mode_precisions int_only [] (9 # 10) (7 # 10) false 32 _ H).
Defined.

(** ** C3 *)

(** C3 (counterexample). With [bits_av mod 3 = 2] (one field, [bitlen = 32],
    so [bits_av = 32]), [set_ideal_precision] gives the extra bit to
    [weight_prec] only: [dice_prec = 10], [weight_prec = 11], not
    [dice_prec = 11]. *)
Lemma C3_two_leftover_bits :
  match make_config int_only [] (9 # 10) (7 # 10) false 32 with
  | inr c =>
      SizeT.sub (bitlen c) (nfields_bits (nfields c)) mod 3 = 2 /\
      match set_ideal_precision c with
      | inr c' => dice_prec c' = 10 /\ weight_prec c' = 11 /\
                  dice_prec c' <> SizeT.sub (bitlen c) (nfields_bits (nfields c)) / 3 + 1
      | inl _ => False
      end
  | inl _ => False
  end.
Proof. vm_compute. repeat split; discriminate. Qed.

(** C3 (amended). [set_ideal_precision] always succeeds; with
    [bits_av = bitlen - ceil_log2(nfields^2)] (in [size_t]),
    [q = bits_av / 3] and [r = bits_av mod 3], it sets
    [dice_prec = q + (r = 1 ? 1 : 0)] and [weight_prec = q + (r = 2 ? 1 : 0)],
    so that [dice_prec + 2*weight_prec = bits_av]. *)
Theorem C3_ideal_precision c :
  SizeT.valid (bitlen c) ->
  let bits_av := SizeT.sub (bitlen c) (nfields_bits (nfields c)) in
  let q := bits_av / 3 in
  let r := bits_av mod 3 in
  let dp := q + (if r =? 1 then 1 else 0) in
  let wp := q + (if r =? 2 then 1 else 0) in
  set_ideal_precision c = inr (with_precisions c dp wp) /\ dp + 2 * wp = bits_av.
Proof.
  intros Hbl bits_av q r dp wp.
  assert (HX : SizeT.valid bits_av) by apply SizeT_wrap_valid.
  unfold SizeT.valid in HX.
  pose proof (Z.div_mod bits_av 3 ltac:(lia)) as Hdm.
  pose proof (Z.mod_pos_bound bits_av 3 ltac:(lia)) as Hr.
  fold q r in Hdm, Hr |- *.
  assert (Hsum : dp + 2 * wp = bits_av).
  { unfold dp, wp.
    destruct (Z.eqb_spec r 1), (Z.eqb_spec r 2); lia. }
  split; [|exact Hsum].
  assert (Hdp : 0 <= dp) by (unfold dp; destruct (r =? 1); lia).
  assert (Hwp : 0 <= wp) by (unfold wp; destruct (r =? 2); lia).
  assert (Hacc : SizeT.add (SizeT.add dp (SizeT.mul 2 wp)) (nfields_bits (nfields c))
                 = bitlen c).
  { unfold SizeT.mul, SizeT.add at 2.
    rewrite (SizeT_wrap_small (2 * wp)) by lia.
    rewrite Hsum. rewrite SizeT_wrap_small by lia.
    apply SizeT_sub_add. exact Hbl. }
  assert (HM : SizeT.modulus = 2 ^ 64) by reflexivity.
  assert (Hq1 : SizeT.add q 1 = q + 1) by (apply SizeT_wrap_small; lia).
  unfold set_ideal_precision. fold bits_av. fold q r. rewrite Hq1.
  unfold dp, wp in Hacc |- *.
  assert (Hr3 : r = 0 \/ r = 1 \/ r = 2) by lia.
  destruct Hr3 as [H0|[H1|H2]]; rewrite ?H0, ?H1, ?H2 in Hacc |- *;
    cbv [Z.eqb Pos.eqb] in Hacc |- *; rewrite ?Z.add_0_r in Hacc |- *;
    apply set_precisions_accepts; lia.
Qed.

Lemma C3_ideal_precision_witness :
  SizeT.valid 32 /\
  set_ideal_precision (mkConfig int_only [] (9 # 10) (7 # 10) false 32 1 1 14 9)
    = inr (with_precisions (mkConfig int_only [] (9 # 10) (7 # 10) false 32 1 1 14 9)
             (32 / 3 + 0) (32 / 3 + 1)) /\ (32 / 3 + 0) + 2 * (32 / 3 + 1) = 32.
Proof.
  assert (Hv : SizeT.valid 32) by (unfold SizeT.valid, SizeT.modulus, SizeT.width; lia).
  split; [exact Hv|].
  exact (C3_ideal_precision (mkConfig int_only [] (9 # 10) (7 # 10) false 32 1 1 14 9) Hv).
Defined.

(** ** C4 *)

Lemma ceil_log2_nonneg n : 0 <= ceil_log2 n.
Proof. unfold ceil_log2. apply Z.log2_up_nonneg. Qed.

(** When no [size_t] operation wraps, [set_precisions] fails exactly on
    [a + 2b + ceil_log2(nfields^2) > bitlen] and otherwise stores [a] and [b]. *)
Lemma set_precisions_nowrap c a b :
  0 <= a -> 0 <= b -> 0 <= nfields c * nfields c < SizeT.modulus ->
  a + 2 * b + ceil_log2 (nfields c * nfields c) < SizeT.modulus ->
  set_precisions c a b =
    if a + 2 * b + ceil_log2 (nfields c * nfields c) >? bitlen c
    then inl (invalid_argument msg_overflow)
    else inr (with_precisions c a b).
Proof.
  intros Ha Hb Hn Hs.
  pose proof (ceil_log2_nonneg (nfields c * nfields c)).
  unfold set_precisions, nfields_bits, SizeT.add, SizeT.mul.
  rewrite (SizeT_wrap_small (nfields c * nfields c)) by exact Hn.
  rewrite (SizeT_wrap_small (2 * b)) by lia.
  rewrite (SizeT_wrap_small (a + 2 * b)) by lia.
  rewrite SizeT_wrap_small by lia.
  reflexivity.
Qed.

(** C4 (code_bug). The overflow check of [set_precisions] is computed in
    [size_t]: for [weight_prec = 2^63], [2*weight_prec] wraps to 0, the
    check passes and the precisions are stored although
    [0 + 2*2^63 + ceil_log2(1) > 32]. *)
Theorem C4_overflow_check_wraps :
  make_config int_only [] (9 # 10) (7 # 10) false 32
    = inr (mkConfig int_only [] (9 # 10) (7 # 10) false 32 1 1 14 9) /\
  0 + 2 * 2 ^ 63 + ceil_log2 (1 * 1) > 32 /\
  set_precisions (mkConfig int_only [] (9 # 10) (7 # 10) false 32 1 1 14 9) 0 (2 ^ 63)
    = inr (with_precisions (mkConfig int_only [] (9 # 10) (7 # 10) false 32 1 1 14 9)
             0 (2 ^ 63)).
Proof.
  split; [vm_compute; reflexivity|].
  split; [vm_compute; reflexivity | vm_compute; reflexivity].
Qed.

(** ** C7 *)

(** C7 (counterexample). [build_circuit(0)] is not refused: the engine goes
    to the built state. *)
Lemma C7_empty_database_accepted :
  build_circuit new_engine 0 = mkEngine true false.
Proof. reflexivity. Qed.

(** C7 (amended). [build_circuit] ignores its [nvals] argument and never
    fails: for every [nvals], including 0, it sets the built flag and leaves
    the setup flag as it was. *)
Theorem C7_build_ignores_nvals e nvals :
  build_circuit e nvals = mkEngine true (is_setup e) /\
  build_circuit e nvals = build_circuit e 1.
Proof. split; reflexivity. Qed.

(** ** C8 *)

Lemma engine_inv_new : engine_inv new_engine.
Proof. unfold engine_inv. simpl. discriminate. Qed.

Lemma engine_inv_build e n : engine_inv (build_circuit e n).
Proof. unfold engine_inv. reflexivity. Qed.

Lemma engine_inv_reset e : engine_inv (reset e).
Proof. unfold engine_inv. simpl. discriminate. Qed.

Lemma implicit_setup_built e e' :
  engine_inv e -> implicit_setup e = inr e' -> is_built e' = true /\ is_built e = true.
Proof.
  unfold engine_inv, implicit_setup, run_setup_phase.
  destruct e as [b s]; simpl. intros Hinv.
  destruct s; simpl.
  - intros H. injection H as <-. simpl. rewrite Hinv by reflexivity. auto.
  - destruct b; simpl; [|discriminate].
    intros H. injection H as <-. simpl. auto.
Qed.

(** a circuit execution that returns [o] *)
Definition stub_run {O} (o : O) : unit -> result O := fun _ => ret o.

(** C8 (counterexample). After a client run from the set-up state the built
    flag is still set: the engine is back in the built state, not in the
    created state. *)
Lemma C8_built_flag_kept :
  run_as_client unit nat (stub_run 0%nat) (mkEngine true true) tt
    = inr (mkEngine true false, 0%nat).
Proof. reflexivity. Qed.

(** C8 (amended). After a [run_as_client] or [run_as_server] call completes,
    the setup flag is cleared but the built flag stays set; the next run need
    not call [build_circuit]: it implicitly runs the setup phase again. *)
Theorem C8_run_returns_to_built (CI SI O : Type) (exc : CI -> result O)
    (exs : SI -> result O) e ci si :
  engine_inv e ->
  (forall e' o, run_as_client CI O exc e ci = inr (e', o) ->
     is_built e' = true /\ is_setup e' = false /\ engine_inv e' /\
     run_as_client CI O exc e' ci = inr (e', o)) /\
  (forall e' o, run_as_server SI O exs e si = inr (e', o) ->
     is_built e' = true /\ is_setup e' = false /\ engine_inv e' /\
     run_as_server SI O exs e' si = inr (e', o)).
Proof.
  intros Hinv.
  split; intros e' o H;
    [unfold run_as_client in H |- * | unfold run_as_server in H |- *];
    destruct (implicit_setup e) as [ex|e1] eqn:Hs; try discriminate; simpl in H;
    destruct (implicit_setup_built e e1 Hinv Hs) as [Hb1 _];
    unfold run_circuit in H;
    [destruct (exc ci) as [ex|r] eqn:Hx | destruct (exs si) as [ex|r] eqn:Hx];
    try discriminate; simpl in H; injection H as <- <-; simpl;
    rewrite Hb1; unfold engine_inv; simpl;
    (split; [reflexivity| split; [reflexivity | split; [discriminate|]]]);
    unfold implicit_setup, run_setup_phase; simpl; reflexivity.
Qed.

Lemma C8_run_returns_to_built_witness :
  engine_inv (mkEngine true true) /\
  is_built (mkEngine true false) = true /\ is_setup (mkEngine true false) = false /\
  engine_inv (mkEngine true false) /\
  run_as_client unit nat (stub_run 0%nat) (mkEngine true false) tt
    = inr (mkEngine true false, 0%nat).
Proof.
  assert (Hinv : engine_inv (mkEngine true true)) by (unfold engine_inv; reflexivity).
  split; [exact Hinv|].
  assert (Hrun : run_as_client unit nat (stub_run 0%nat) (mkEngine true true) tt
                   = inr (mkEngine true false, 0%nat)) by reflexivity.
  exact (proj1 (C8_run_returns_to_built unit unit nat (stub_run 0%nat) (stub_run 0%nat)
                  (mkEngine true true) tt tt Hinv) _ _ Hrun).
Defined.

(** ** C10 *)

Lemma max_element_fold fs m :
  (fold_left max_weight_step fs m = m \/
   In (fold_left max_weight_step fs m) (map (fun f => weight (snd f)) fs)) /\
  (m <= fold_left max_weight_step fs m)%Q /\
  Forall (fun f => (weight (snd f) <= fold_left max_weight_step fs m)%Q) fs.
Proof.
  revert m. induction fs as [|g fs IH]; intros m; simpl.
  - split; [left; reflexivity | split; [apply Qle_refl | constructor]].
  - assert (Hs : (max_weight_step m g = weight (snd g) /\ (m < weight (snd g))%Q) \/
                 (max_weight_step m g = m /\ (weight (snd g) <= m)%Q)).
    { unfold max_weight_step. destruct (Qlt_le_dec m (weight (snd g))); auto. }
    destruct Hs as [[-> Hlt]|[-> Hle]].
    + destruct (IH (weight (snd g))) as [Hin [Hge Hall]].
      split; [destruct Hin as [Heq|Hin]; [right; left; symmetry; exact Heq | right; right; exact Hin]|].
      split; [apply Qle_trans with (weight (snd g)); [apply Qlt_le_weak; exact Hlt | exact Hge]|].
      constructor; [exact Hge | exact Hall].
    + destruct (IH m) as [Hin [Hge Hall]].
      split; [destruct Hin as [Heq|Hin]; [left; exact Heq | right; right; exact Hin]|].
      split; [exact Hge|].
      constructor; [apply Qle_trans with m; [exact Hle | exact Hge] | exact Hall].
Qed.

Lemma max_element_weight_spec fs :
  fs <> [] ->
  In (max_element_weight fs) (map (fun f => weight (snd f)) fs) /\
  Forall (fun f => (weight (snd f) <= max_element_weight fs)%Q) fs.
Proof.
  destruct fs as [|[k f] fs]; [contradiction|]. intros _. unfold max_element_weight.
  destruct (max_element_fold fs (weight f)) as [Hin [Hge Hall]].
  split.
  - simpl. destruct Hin as [->|Hin]; auto.
  - constructor; [exact Hge | exact Hall].
Qed.

(** C10. For a non-empty field map the constructor sets [max_weight] to the
    largest field weight; [set_precisions] and [set_ideal_precision] leave it
    unchanged; and every rescaled weight of [field_weight] is
    [rescale_weight(avg, weight_prec, max_weight)]. *)
Theorem C10_max_weight fs groups t tt mm bl c :
  fs <> [] ->
  make_config fs groups t tt mm bl = inr c ->
  (In (max_weight c) (map (fun f => weight (snd f)) fs) /\
   Forall (fun f => (weight (snd f) <= max_weight c)%Q) fs) /\
  (forall a b c', set_precisions c a b = inr c' -> max_weight c' = max_weight c) /\
  (forall c', set_ideal_precision c = inr c' -> max_weight c' = max_weight c) /\
  (forall rescale l r w, field_weight_r rescale c l r = inr w ->
     exists avg, w = rescale avg (weight_prec c) (max_weight c)).
Proof.
  intros Hne Hc.
  assert (Hmw : max_weight c = max_element_weight fs).
  { unfold make_config in Hc. destruct (negb _); [discriminate|].
    destruct (check_exchange_groups fs [] groups); simpl in Hc; [discriminate|].
    injection Hc as <-. reflexivity. }
  assert (Hsp : forall a b c', set_precisions c a b = inr c' -> max_weight c' = max_weight c).
  { intros a b c' H. unfold set_precisions in H.
    destruct (_ >? _); [discriminate|]. injection H as <-. reflexivity. }
  split; [rewrite Hmw; apply max_element_weight_spec; exact Hne|].
  split; [exact Hsp|].
  split.
  - intros c' H. unfold set_ideal_precision in H.
    destruct (_ =? 1); [|destruct (_ =? 2)]; eapply Hsp; exact H.
  - intros rescale l r w H. unfold field_weight_r in H.
    destruct (at_key (fields c) l), (at_key (fields c) r); try discriminate.
    destruct (negb _); [discriminate|]. destruct (negb _); [discriminate|].
    injection H as <-. eexists. reflexivity.
Qed.

(** two fields of weights 1 and 2: [max_weight] is 2 *)
Lemma C10_max_weight_witness :
  two_ints <> [] /\
  make_config two_ints [] (9 # 10) (7 # 10) false 32
    = inr (mkConfig two_ints [] (9 # 10) (7 # 10) false 32 2 2 14 8) /\
  (In 2%Q (map (fun f => weight (snd f)) two_ints) /\
   Forall (fun f => (weight (snd f) <= 2)%Q) two_ints).
Proof.
  assert (Hne : two_ints <> []) by discriminate.
  assert (Hc : make_config two_ints [] (9 # 10) (7 # 10) false 32
                 = inr (mkConfig two_ints [] (9 # 10) (7 # 10) false 32 2 2 14 8))
    by (vm_compute; reflexivity).
  split; [exact Hne | split; [exact Hc|]].
  exact (proj1 (C10_max_weight two_ints [] (9 # 10) (7 # 10) false 32 _ Hne Hc)).
Defined.

(** ** C5 *)








(** C5 (code bug). [1 << dice_prec] is an [int] shift: [set_precisions(31, 0)]
    is accepted for one field and bitlen 32 (the budget [31 + 0 + 0 <= 32]
    holds), [1 << 31] is [INT_MIN], the product [0.9 * INT_MIN] is negative
    and its conversion to the unsigned [CircUnit] is undefined; the same holds
    for [dice_prec = 32], where the shift itself is undefined.  So [T] is not
    [threshold * 2^dice_prec] for every accepted precision. *)
Lemma C5_threshold_shift_overflow :
  set_precisions demo_config 31 0 = inr (with_precisions demo_config 31 0) /\
  budget (with_precisions demo_config 31 0) /\
  (0 <= tthreshold demo_config)%Q /\ (tthreshold demo_config <= threshold demo_config)%Q /\
  (threshold demo_config <= 1)%Q /\
  int_shl1 31 = inr (- 2 ^ 31) /\
  threshold_const 32 (threshold demo_config) 31 = inl undefined_behaviour /\
  (forall num den,
     threshold_bits 32 (with_precisions demo_config 31 0) num den = inl undefined_behaviour) /\
  set_precisions demo_config 32 0 = inr (with_precisions demo_config 32 0) /\
  budget (with_precisions demo_config 32 0) /\
  (forall num den,
     threshold_bits 32 (with_precisions demo_config 32 0) num den = inl undefined_behaviour).
Proof.
  split; [vm_compute; reflexivity|].
  split; [unfold budget, ceil_log2; simpl; lia|].
  split; [unfold Qle; simpl; lia|].
  split; [unfold Qle; simpl; lia|].
  split; [unfold Qle; simpl; lia|].
  split; [reflexivity|].
  split; [vm_compute; reflexivity|].
  split; [intros num den; vm_compute; reflexivity|].
  split; [vm_compute; reflexivity|].
  split; [unfold budget, ceil_log2; simpl; lia|].
  intros num den; vm_compute; reflexivity.
Qed.



(** ** C6 *)













(** ** C9 *)

(** every name of the group is a configured field, and the group is not empty *)
Definition group_known (fs : FieldMap) (g : IndexSet) : Prop :=
  g <> [] /\ Forall (fun x => at_key fs x <> None) g.

(** no field is listed twice, in one group or across groups *)
Definition groups_disjoint (groups : list IndexSet) : Prop := NoDup (List.concat groups).

(** all fields of the group share comparator and bitsize *)
Definition group_homogeneous (fs : FieldMap) (g : IndexSet) : Prop :=
  forall x y fx fy, In x g -> In y g -> at_key fs x = Some fx -> at_key fs y = Some fy ->
  comparator fx = comparator fy /\ bitsize fx = bitsize fy.

Definition matches_f0 (fs : FieldMap) (f0 : ML_Field) (g : IndexSet) : Prop :=
  forall x f, In x g -> at_key fs x = Some f ->
  comparator f = comparator f0 /\ bitsize f = bitsize f0.

Lemma comparator_eqb_spec a b : comparator_eqb a b = true <-> a = b.
Proof. destruct a, b; simpl; split; congruence. Qed.

Lemma existsb_eqb_in x l : existsb (String.eqb x) l = true <-> In x l.
Proof.
  rewrite existsb_exists. split.
  - intros [y [Hy Heq]]. apply String.eqb_eq in Heq. subst. exact Hy.
  - intros H. exists x. split; [exact H | apply String.eqb_refl].
Qed.

Lemma check_group_fields_spec fs f0 group xg :
  Forall (fun x => at_key fs x <> None) group -> NoDup xg ->
  match check_group_fields fs f0 xg group with
  | inr xg' => xg' = rev group ++ xg /\ NoDup (group ++ xg) /\ matches_f0 fs f0 group
  | inl e => (exists m, e = invalid_argument m) /\
             ~ (NoDup (group ++ xg) /\ matches_f0 fs f0 group)
  end.
Proof.
  revert xg. induction group as [|x rest IH]; intros xg Hk Hxg; simpl.
  - split; [reflexivity | split; [exact Hxg | intros y f []]].
  - inversion Hk as [|? ? Hx Hrest]; subst.
    destruct (existsb (String.eqb x) xg) eqn:Hex.
    + apply existsb_eqb_in in Hex.
      split; [eexists; reflexivity|].
      intros [Hnd _]. apply NoDup_cons_iff in Hnd as [Hn _].
      apply Hn. apply in_or_app. right. exact Hex.
    + assert (Hnx : ~ In x xg) by (intros Hin; apply existsb_eqb_in in Hin; congruence).
      destruct (at_key fs x) as [f|] eqn:Hf; [|contradiction].
      destruct (comparator_eqb (comparator f) (comparator f0)) eqn:Hc; simpl.
      2:{ split; [eexists; reflexivity|]. intros [_ Hm].
          destruct (Hm x f (or_introl eq_refl) Hf) as [Hc' _].
          apply comparator_eqb_spec in Hc'. congruence. }
      destruct (Z.eqb_spec (bitsize f) (bitsize f0)) as [Hbs|Hbs]; simpl.
      2:{ split; [eexists; reflexivity|]. intros [_ Hm].
          destruct (Hm x f (or_introl eq_refl) Hf) as [_ Hb']. contradiction. }
      apply comparator_eqb_spec in Hc.
      assert (Hxg' : NoDup (x :: xg)) by (constructor; assumption).
      specialize (IH (x :: xg) Hrest Hxg').
      assert (Hperm : Permutation (rest ++ x :: xg) (x :: rest ++ xg))
        by (symmetry; apply Permutation_middle).
      destruct (check_group_fields fs f0 (x :: xg) rest) as [e|xg''].
      * destruct IH as [He Hnot]. split; [exact He|].
        intros [Hnd Hm]. apply Hnot. split.
        -- apply Permutation_NoDup with (x :: rest ++ xg); [symmetry; exact Hperm | exact Hnd].
        -- intros y g Hy Hg. exact (Hm y g (or_intror Hy) Hg).
      * destruct IH as [-> [Hnd Hm]]. split; [simpl; rewrite <- app_assoc; reflexivity|].
        split.
        -- apply Permutation_NoDup with (rest ++ x :: xg); [exact Hperm | exact Hnd].
        -- intros y g [<-|Hy] Hg.
           ++ rewrite Hf in Hg. injection Hg as <-. split; assumption.
           ++ exact (Hm y g Hy Hg).
Qed.

Lemma homogeneous_iff_f0 fs g0 g f0 :
  In g0 g -> at_key fs g0 = Some f0 ->
  (group_homogeneous fs g <-> matches_f0 fs f0 g).
Proof.
  intros Hin Hf0. split.
  - intros Hh x f Hx Hf. exact (Hh x g0 f f0 Hx Hin Hf Hf0).
  - intros Hm x y fx fy Hx Hy Hfx Hfy.
    destruct (Hm x fx Hx Hfx), (Hm y fy Hy Hfy). split; congruence.
Qed.

Lemma check_exchange_groups_spec fs groups xg :
  Forall (group_known fs) groups -> NoDup xg ->
  match check_exchange_groups fs xg groups with
  | inr _ => NoDup (List.concat groups ++ xg) /\ Forall (group_homogeneous fs) groups
  | inl e => (exists m, e = invalid_argument m) /\
             ~ (NoDup (List.concat groups ++ xg) /\ Forall (group_homogeneous fs) groups)
  end.
Proof.
  revert xg. induction groups as [|g rest IH]; intros xg Hk Hxg.
  - simpl. split; [exact Hxg | constructor].
  - inversion Hk as [|? ? [Hne Hgk] Hrest]; subst.
    destruct g as [|g0 gs]; [contradiction|].
    inversion Hgk as [|? ? Hg0 _]; subst.
    set (g := g0 :: gs) in *.
    change (List.concat (g :: rest)) with (g ++ List.concat rest).
    change (check_exchange_groups fs xg (g :: rest)) with
      (match at_key fs g0 with
       | None => raise out_of_range
       | Some f0 => bind (check_group_fields fs f0 xg g)
                      (fun xg => check_exchange_groups fs xg rest)
       end).
    destruct (at_key fs g0) as [f0|] eqn:Hf0; [|contradiction].
    pose proof (homogeneous_iff_f0 fs g0 g f0 (or_introl eq_refl) Hf0) as Hiff.
    pose proof (check_group_fields_spec fs f0 g xg Hgk Hxg) as Hg.
    assert (Hsw : Permutation (g ++ List.concat rest ++ xg) (List.concat rest ++ g ++ xg))
      by apply Permutation_app_swap_app.
    destruct (check_group_fields fs f0 xg g) as [e|xg'].
    + destruct Hg as [He Hnot]. cbn [bind]. split; [exact He|].
      intros [Hnd Hh]. inversion Hh as [|? ? Hhg _]; subst. apply Hnot. split.
      * rewrite <- app_assoc in Hnd.
        apply (NoDup_app_remove_l (List.concat rest)).
        exact (Permutation_NoDup Hsw Hnd).
      * apply Hiff. exact Hhg.
    + destruct Hg as [-> [Hnd Hm]]. cbn [bind].
      assert (Hnd' : NoDup (rev g ++ xg)).
      { apply Permutation_NoDup with (g ++ xg); [|exact Hnd].
        apply Permutation_app_tail. apply Permutation_rev. }
      specialize (IH (rev g ++ xg) Hrest Hnd').
      assert (Hp : Permutation (List.concat rest ++ rev g ++ xg) ((g ++ List.concat rest) ++ xg)).
      { rewrite <- app_assoc. symmetry. eapply Permutation_trans; [exact Hsw|].
        apply Permutation_app_head. apply Permutation_app_tail. apply Permutation_rev. }
      destruct (check_exchange_groups fs (rev g ++ xg) rest) as [e|u].
      * destruct IH as [He Hnot]. split; [exact He|].
        intros [Hnd2 Hh]. inversion Hh as [|? ? _ Hhr]; subst. apply Hnot. split.
        -- apply Permutation_NoDup with ((g ++ List.concat rest) ++ xg);
             [symmetry; exact Hp | exact Hnd2].
        -- exact Hhr.
      * destruct IH as [Hnd2 Hhr]. split.
        -- apply Permutation_NoDup with (List.concat rest ++ rev g ++ xg); [exact Hp | exact Hnd2].
        -- constructor; [apply Hiff; exact Hm | exact Hhr].
Qed.

(** The assertion of the constructor, evaluated in [size_t], only fails for
    [bitlen = 0]: [dice_prec + 2*weight_prec + ceil_log2(n^2)] wraps to
    [bitlen] or [bitlen - 1]. *)
Lemma precision_assert_holds bl nf dp :
  1 <= bl < SizeT.modulus ->
  precision_assert bl nf dp (default_weight_prec bl nf dp) = true.
Proof.
  intros Hbl. unfold precision_assert, default_weight_prec.
  pose proof SizeT_modulus_pos as HM.
  set (L := nfields_bits nf).
  set (X := SizeT.sub (SizeT.sub bl L) dp).
  assert (HX : 0 <= X < SizeT.modulus) by apply SizeT_wrap_valid.
  pose proof (Z.div_mod X 2 ltac:(lia)) as Hdm.
  pose proof (Z.mod_pos_bound X 2 ltac:(lia)) as Hp.
  set (p := X mod 2) in *.
  assert (Hm : SizeT.mul 2 (X / 2) = X - p).
  { unfold SizeT.mul. rewrite SizeT_wrap_small by lia. lia. }
  rewrite Hm.
  assert (Hval : SizeT.add (SizeT.add dp (X - p)) L = bl - p).
  { unfold SizeT.add, SizeT.wrap. rewrite Z.add_mod_idemp_l by lia.
    replace (dp + (X - p) + L) with (X + (dp + L - p)) by ring.
    unfold X, SizeT.sub, SizeT.wrap. rewrite Z.add_mod_idemp_l by lia.
    replace ((bl - L) mod SizeT.modulus - dp + (dp + L - p))
      with ((bl - L) mod SizeT.modulus + (L - p)) by ring.
    rewrite Z.add_mod_idemp_l by lia.
    replace (bl - L + (L - p)) with (bl - p) by ring. apply Z.mod_small; lia. }
  rewrite Hval. apply Z.leb_le. lia.
Qed.

(** C9 (counterexample). A group naming a field that is not configured
    fails with [std::out_of_range], not with [invalid_argument], although the
    groups are disjoint and the configured fields of the group agree. *)
Lemma C9_unknown_group_field :
  make_config int_only [["int_1"%string; "int_2"%string]] (9 # 10) (7 # 10) false 32
    = inl out_of_range /\
  groups_disjoint [["int_1"%string; "int_2"%string]] /\
  Forall (group_homogeneous int_only) [["int_1"%string; "int_2"%string]].
Proof.
  split; [vm_compute; reflexivity|]. split.
  - unfold groups_disjoint. simpl. repeat constructor; simpl; intuition discriminate.
  - constructor; [|constructor].
    intros x y fx fy Hx Hy Hfx Hfy.
    destruct Hx as [<-|[<-|[]]]; destruct Hy as [<-|[<-|[]]];
      vm_compute in Hfx, Hfy; try discriminate;
      injection Hfx as <-; injection Hfy as <-; split; reflexivity.
Qed.

(** ** Step 1 of [SELCircuit::build_circuit]: which fields get a weight *)

Lemma notin_remove_id x l : ~ In x l -> remove string_dec x l = l.
Proof.
  induction l as [|a l IH]; simpl; intros H; [reflexivity|].
  destruct (string_dec x a) as [->|Hne]; [exfalso; apply H; left; reflexivity|].
  f_equal. apply IH. intros Hin. apply H. right. exact Hin.
Qed.

Lemma perm_remove x l :
  NoDup l -> In x l -> Permutation l (x :: remove string_dec x l).
Proof.
  induction l as [|a l IH]; intros Hnd Hin; [destruct Hin|].
  inversion Hnd as [|? ? Ha Hl]; subst. simpl.
  destruct (string_dec x a) as [->|Hne].
  - rewrite notin_remove_id by exact Ha. reflexivity.
  - destruct Hin as [->|Hin]; [contradiction|].
    eapply Permutation_trans; [apply perm_skip; exact (IH Hl Hin)|]. apply perm_swap.
Qed.

Lemma NoDup_app_disjoint {A} (l1 l2 : list A) x :
  NoDup (l1 ++ l2) -> In x l1 -> In x l2 -> False.
Proof.
  induction l1 as [|a l1 IH]; simpl; intros Hnd H1 H2; [exact H1|].
  inversion Hnd as [|? ? Ha Hl]; subst.
  destruct H1 as [->|H1]; [apply Ha; apply in_or_app; right; exact H2 | exact (IH Hl H1 H2)].
Qed.

(** a list can be taken out of a duplicate-free list iff it has no
    duplicates and all its elements are there *)
Lemma extractable_iff (s l : list FieldName) :
  NoDup s -> ((exists r, Permutation s (l ++ r)) <-> NoDup l /\ incl l s).
Proof.
  intros Hs. split.
  - intros [r Hp]. pose proof (Permutation_NoDup Hp Hs) as Hnd. split.
    + exact (NoDup_app_remove_r _ _ Hnd).
    + intros x Hx. apply (Permutation_in x (Permutation_sym Hp)). apply in_or_app. left. exact Hx.
  - revert s Hs. induction l as [|x l IH]; intros s Hs [Hnd Hincl].
    + exists s. reflexivity.
    + inversion Hnd as [|? ? Hx Hl]; subst.
      assert (Hxs : In x s) by (apply Hincl; left; reflexivity).
      pose proof (perm_remove x s Hs Hxs) as Hp.
      assert (Hs' : NoDup (remove string_dec x s))
        by (apply (Permutation_NoDup Hp) in Hs; inversion Hs; assumption).
      destruct (IH (remove string_dec x s) Hs') as [r Hr].
      { split; [exact Hl|]. intros y Hy. apply in_in_remove.
        - intros ->. contradiction.
        - apply Hincl. right. exact Hy. }
      exists r. eapply Permutation_trans; [exact Hp|]. simpl. apply perm_skip. exact Hr.
Qed.

Lemma erase_group_spec g s :
  NoDup s ->
  match erase_group s g with
  | inr s' => Permutation s (g ++ s')
  | inl e => e = runtime_error msg_distinct /\ ~ exists r, Permutation s (g ++ r)
  end.
Proof.
  revert s. induction g as [|i g IH]; intros s Hs; simpl; [reflexivity|].
  unfold set_erase. destruct (existsb (String.eqb i) s) eqn:Hex; simpl.
  - apply existsb_eqb_in in Hex.
    pose proof (perm_remove i s Hs Hex) as Hp.
    assert (Hs' : NoDup (remove string_dec i s))
      by (apply (Permutation_NoDup Hp) in Hs; inversion Hs; assumption).
    specialize (IH _ Hs').
    destruct (erase_group (remove string_dec i s) g) as [e|s'].
    + destruct IH as [He Hnot]. split; [exact He|].
      intros [r Hr]. apply Hnot. exists r.
      apply (Permutation_cons_inv (a := i)).
      eapply Permutation_trans; [apply Permutation_sym; exact Hp | exact Hr].
    + eapply Permutation_trans; [exact Hp|]. apply perm_skip. exact IH.
  - split; [reflexivity|]. intros [r Hr].
    assert (Hin : In i s) by (apply (Permutation_in i (Permutation_sym Hr)); left; reflexivity).
    apply existsb_eqb_in in Hin. congruence.
Qed.

Lemma group_weights_spec W (bgw : IndexSet -> result W) groups s :
  (forall g, exists w, bgw g = inr w) -> NoDup s ->
  match group_weights W bgw s groups with
  | inr p => List.length (fst p) = List.length groups /\
             Permutation s (List.concat groups ++ snd p)
  | inl e => e = runtime_error msg_distinct /\
             ~ exists r, Permutation s (List.concat groups ++ r)
  end.
Proof.
  intros Htot. revert s. induction groups as [|g rest IH]; intros s Hs; simpl.
  - split; reflexivity.
  - destruct (Htot g) as [w ->]. cbn [bind].
    pose proof (erase_group_spec g s Hs) as Hg.
    destruct (erase_group s g) as [e|s']; cbn [bind].
    + destruct Hg as [He Hnot]. split; [exact He|].
      intros [r Hr]. apply Hnot. exists (List.concat rest ++ r). rewrite app_assoc. exact Hr.
    + assert (Hs' : NoDup s')
        by (exact (NoDup_app_remove_l _ _ (Permutation_NoDup Hg Hs))).
      specialize (IH s' Hs').
      destruct (group_weights W bgw s' rest) as [e|p]; cbn [bind].
      * destruct IH as [He Hnot]. split; [exact He|].
        intros [r Hr]. apply Hnot. exists r.
        apply (Permutation_app_inv_l g).
        eapply Permutation_trans; [apply Permutation_sym; exact Hg|].
        rewrite app_assoc. exact Hr.
      * destruct IH as [Hlen Hp]. simpl. split; [lia|].
        rewrite <- app_assoc. eapply Permutation_trans; [exact Hg|].
        apply Permutation_app_head. exact Hp.
Qed.

Lemma map_result_total {A B} (f : A -> result B) l :
  (forall x, exists y, f x = inr y) ->
  exists ys, map_result f l = inr ys /\ List.length ys = List.length l.
Proof.
  intros Htot. induction l as [|x l IH]; simpl.
  - exists []. split; reflexivity.
  - destruct (Htot x) as [y ->]. destruct IH as [ys [-> Hl]]. cbn [bind].
    exists (y :: ys). split; [reflexivity | simpl; lia].
Qed.

Lemma field_weights_spec W (bgw : IndexSet -> result W) (sfw : FieldName -> result W) c :
  NoDup (map fst (fields c)) ->
  (forall g, exists w, bgw g = inr w) -> (forall i, exists w, sfw i = inr w) ->
  match field_weights W bgw sfw c with
  | inr ws => exists rest,
      Permutation (map fst (fields c)) (List.concat (exchange_groups c) ++ rest) /\
      List.length ws = (List.length (exchange_groups c) + List.length rest)%nat /\
      (forall i, In i rest <-> In i (map fst (fields c)) /\ ~ In i (List.concat (exchange_groups c)))
  | inl e => e = runtime_error msg_distinct /\
      ~ (NoDup (List.concat (exchange_groups c)) /\
         incl (List.concat (exchange_groups c)) (map fst (fields c)))
  end.
Proof.
  intros Hnd Hg Hs. unfold field_weights.
  pose proof (group_weights_spec W bgw (exchange_groups c) _ Hg Hnd) as H.
  destruct (group_weights W bgw (map fst (fields c)) (exchange_groups c)) as [e|[gws rest]];
    cbn [bind fst snd].
  - destruct H as [He Hnot]. split; [exact He|].
    rewrite <- extractable_iff by exact Hnd. exact Hnot.
  - destruct H as [Hlen Hp]. simpl in Hlen, Hp.
    destruct (map_result_total sfw rest Hs) as [ys [-> Hys]]. cbn [bind].
    exists rest. split; [exact Hp|]. split; [rewrite length_app; lia|].
    pose proof (Permutation_NoDup Hp Hnd) as Hnd'.
    intros i. split.
    + intros Hi. split.
      * apply (Permutation_in i (Permutation_sym Hp)). apply in_or_app. right. exact Hi.
      * intros Hc. exact (NoDup_app_disjoint _ _ i Hnd' Hc Hi).
    + intros [Hi Hc]. apply (Permutation_in i Hp) in Hi. apply in_app_or in Hi.
      destruct Hi as [Hi|Hi]; [contradiction | exact Hi].
Qed.

(** ** What an accepted configuration guarantees *)

Lemma check_group_fields_known fs f0 xg g r :
  check_group_fields fs f0 xg g = inr r -> Forall (fun x => at_key fs x <> None) g.
Proof.
  revert xg. induction g as [|x g IH]; intros xg H; [constructor|].
  simpl in H. destruct (existsb (String.eqb x) xg); [discriminate|].
  destruct (at_key fs x) as [f|] eqn:Hf; [|discriminate].
  destruct (negb (comparator_eqb (comparator f) (comparator f0))); [discriminate|].
  destruct (negb (bitsize f =? bitsize f0)); [discriminate|].
  constructor; [congruence | exact (IH _ H)].
Qed.

Lemma check_exchange_groups_known fs xg groups u :
  check_exchange_groups fs xg groups = inr u -> Forall (group_known fs) groups.
Proof.
  revert xg. induction groups as [|g rest IH]; intros xg H; [constructor|].
  destruct g as [|g0 gs]; [discriminate|].
  change (check_exchange_groups fs xg ((g0 :: gs) :: rest)) with
    (match at_key fs g0 with
     | None => raise out_of_range
     | Some f0 => bind (check_group_fields fs f0 xg (g0 :: gs))
                    (fun xg => check_exchange_groups fs xg rest)
     end) in H.
  destruct (at_key fs g0) as [f0|]; [|discriminate].
  destruct (check_group_fields fs f0 xg (g0 :: gs)) as [e|xg'] eqn:Hc; [discriminate|].
  cbn [bind] in H. constructor.
  - split; [discriminate | exact (check_group_fields_known _ _ _ _ _ Hc)].
  - exact (IH _ H).
Qed.

Lemma at_key_in fs x : at_key fs x <> None -> In x (map fst fs).
Proof.
  induction fs as [|[k f] fs IH]; simpl; intros H; [contradiction|].
  destruct (String.eqb_spec x k) as [->|Hne]; [left; reflexivity | right; exact (IH H)].
Qed.

Lemma make_config_inv fs groups t t' mm bl c :
  make_config fs groups t t' mm bl = inr c ->
  check_exchange_groups fs [] groups = inr tt /\
  c = mkConfig fs groups t t' mm bl (Z.of_nat (List.length fs)) (max_element_weight fs)
        (default_dice_prec fs)
        (default_weight_prec bl (Z.of_nat (List.length fs)) (default_dice_prec fs)).
Proof.
  unfold make_config. intros H.
  destruct (negb (precision_assert _ _ _ _)); [discriminate|].
  destruct (check_exchange_groups fs [] groups) as [e|[]]; [discriminate|].
  cbn [bind] in H. injection H as <-. split; reflexivity.
Qed.

Lemma make_config_groups fs groups t t' mm bl c :
  make_config fs groups t t' mm bl = inr c ->
  Forall (group_known fs) groups /\ groups_disjoint groups /\
  Forall (group_homogeneous fs) groups.
Proof.
  intros H. destruct (make_config_inv _ _ _ _ _ _ _ H) as [Hc _].
  pose proof (check_exchange_groups_known _ _ _ _ Hc) as Hk.
  pose proof (check_exchange_groups_spec fs groups [] Hk (NoDup_nil _)) as Hs.
  rewrite Hc, app_nil_r in Hs. destruct Hs as [Hnd Hh].
  split; [exact Hk | split; [exact Hnd | exact Hh]].
Qed.

(** ** C9, amended *)

(** every failure of the group checks is [invalid_argument], [out_of_range]
    or, for an empty group, undefined *)
Definition check_error (e : exn) : Prop :=
  (exists m, e = invalid_argument m) \/ e = out_of_range \/ e = undefined_behaviour.

Lemma check_group_fields_errors fs f0 xg g e :
  check_group_fields fs f0 xg g = inl e -> (exists m, e = invalid_argument m) \/ e = out_of_range.
Proof.
  revert xg. induction g as [|x g IH]; intros xg H; simpl in H; [discriminate|].
  destruct (existsb (String.eqb x) xg); [injection H as <-; left; eexists; reflexivity|].
  destruct (at_key fs x) as [f|]; [|injection H as <-; right; reflexivity].
  destruct (negb (comparator_eqb (comparator f) (comparator f0)));
    [injection H as <-; left; eexists; reflexivity|].
  destruct (negb (bitsize f =? bitsize f0)); [injection H as <-; left; eexists; reflexivity|].
  exact (IH _ H).
Qed.

Lemma check_exchange_groups_errors fs xg groups e :
  check_exchange_groups fs xg groups = inl e -> check_error e.
Proof.
  unfold check_error.
  revert xg. induction groups as [|g rest IH]; intros xg H; [discriminate|].
  destruct g as [|g0 gs]; [injection H as <-; right; right; reflexivity|].
  change (check_exchange_groups fs xg ((g0 :: gs) :: rest)) with
    (match at_key fs g0 with
     | None => raise out_of_range
     | Some f0 => bind (check_group_fields fs f0 xg (g0 :: gs))
                    (fun xg => check_exchange_groups fs xg rest)
     end) in H.
  destruct (at_key fs g0) as [f0|]; [|injection H as <-; right; left; reflexivity].
  destruct (check_group_fields fs f0 xg (g0 :: gs)) as [e'|xg'] eqn:Hc; cbn [bind] in H.
  - injection H as <-. destruct (check_group_fields_errors _ _ _ _ _ Hc); tauto.
  - exact (IH _ H).
Qed.

(** disjoint names that agree with [f0]: only an unconfigured name stops the loop *)
Lemma check_group_fields_dh fs f0 xg g :
  NoDup (g ++ xg) -> matches_f0 fs f0 g ->
  check_group_fields fs f0 xg g = inr (rev g ++ xg) \/
  check_group_fields fs f0 xg g = inl out_of_range.
Proof.
  revert xg. induction g as [|x g IH]; intros xg Hnd Hm; simpl; [left; reflexivity|].
  inversion Hnd as [|? ? Hx Hnd']; subst.
  assert (Hnx : existsb (String.eqb x) xg = false).
  { destruct (existsb (String.eqb x) xg) eqn:E; [|reflexivity].
    apply existsb_eqb_in in E. exfalso. apply Hx. apply in_or_app. right. exact E. }
  rewrite Hnx.
  destruct (at_key fs x) as [f|] eqn:Hf; [|right; reflexivity].
  destruct (Hm x f (or_introl eq_refl) Hf) as [Hc Hb].
  rewrite Hc, Hb, Z.eqb_refl, (proj2 (comparator_eqb_spec (comparator f0) (comparator f0)) eq_refl).
  cbn [negb].
  assert (Hnd2 : NoDup (g ++ x :: xg))
    by (apply Permutation_NoDup with (x :: g ++ xg);
        [apply Permutation_middle | constructor; [exact Hx | exact Hnd']]).
  assert (Hm2 : matches_f0 fs f0 g) by (intros y fy Hy Hfy; exact (Hm y fy (or_intror Hy) Hfy)).
  destruct (IH (x :: xg) Hnd2 Hm2) as [H|H]; rewrite H; [left | right; reflexivity].
  simpl. rewrite <- app_assoc. reflexivity.
Qed.

Lemma check_exchange_groups_dh fs xg groups :
  NoDup (List.concat groups ++ xg) -> Forall (group_homogeneous fs) groups ->
  (exists u, check_exchange_groups fs xg groups = inr u) \/
  check_exchange_groups fs xg groups = inl out_of_range \/
  (check_exchange_groups fs xg groups = inl undefined_behaviour /\ In [] groups).
Proof.
  revert xg. induction groups as [|g rest IH]; intros xg Hnd Hh; [left; eexists; reflexivity|].
  inversion Hh as [|? ? Hhg Hhr]; subst.
  destruct g as [|g0 gs]; [right; right; split; [reflexivity | left; reflexivity]|].
  set (g := g0 :: gs) in *.
  change (List.concat (g :: rest)) with (g ++ List.concat rest) in Hnd.
  change (check_exchange_groups fs xg (g :: rest)) with
    (match at_key fs g0 with
     | None => raise out_of_range
     | Some f0 => bind (check_group_fields fs f0 xg g)
                    (fun xg => check_exchange_groups fs xg rest)
     end).
  destruct (at_key fs g0) as [f0|] eqn:Hf0; [|right; left; reflexivity].
  pose proof (proj1 (homogeneous_iff_f0 fs g0 g f0 (or_introl eq_refl) Hf0) Hhg) as Hm.
  assert (Hsw : Permutation (g ++ List.concat rest ++ xg) (List.concat rest ++ g ++ xg))
    by apply Permutation_app_swap_app.
  rewrite <- app_assoc in Hnd.
  assert (Hg : NoDup (g ++ xg))
    by exact (NoDup_app_remove_l (List.concat rest) _ (Permutation_NoDup Hsw Hnd)).
  destruct (check_group_fields_dh fs f0 xg g Hg Hm) as [-> | ->]; cbn [bind];
    [|right; left; reflexivity].
  assert (Hnd' : NoDup (List.concat rest ++ rev g ++ xg)).
  { apply Permutation_NoDup with (g ++ List.concat rest ++ xg); [|exact Hnd].
    eapply Permutation_trans; [exact Hsw|]. apply Permutation_app_head.
    apply Permutation_app_tail. apply Permutation_rev. }
  destruct (IH _ Hnd' Hhr) as [H|[H|[H Hin]]]; [left; exact H | right; left; exact H |].
  right; right. split; [exact H | right; exact Hin].
Qed.

(** C9 (amended). For [bitlen >= 1]: the constructor succeeds exactly when
    every exchange group is non-empty and names only configured fields, the
    groups are disjoint (no field twice, in a group or across groups) and
    the fields of each group agree in comparator and bitsize; it then stores
    the fields and groups unchanged.  If all groups are non-empty and name
    configured fields, every other input fails with [invalid_argument]
    (InvalidConfig).  If the groups are disjoint and agree but some group is
    empty or names an unconfigured field, the constructor fails with
    [std::out_of_range], or has undefined behaviour when a group is empty.
    Every failure of the checks is one of these three. *)
Theorem C9_exchange_group_checks fs groups t tt mm bl :
  1 <= bl < SizeT.modulus ->
  ((Forall (group_known fs) groups /\ groups_disjoint groups /\
    Forall (group_homogeneous fs) groups) <->
   exists c, make_config fs groups t tt mm bl = inr c) /\
  (forall c, make_config fs groups t tt mm bl = inr c ->
     fields c = fs /\ exchange_groups c = groups) /\
  (Forall (group_known fs) groups ->
   ~ (groups_disjoint groups /\ Forall (group_homogeneous fs) groups) ->
   exists m, make_config fs groups t tt mm bl = inl (invalid_argument m)) /\
  (groups_disjoint groups -> Forall (group_homogeneous fs) groups ->
   ~ Forall (group_known fs) groups ->
   make_config fs groups t tt mm bl = inl out_of_range \/
   (make_config fs groups t tt mm bl = inl undefined_behaviour /\ In [] groups)) /\
  (forall e, make_config fs groups t tt mm bl = inl e -> check_error e).
Proof.
  intros Hbl.
  assert (Hmc : make_config fs groups t tt mm bl =
                bind (check_exchange_groups fs [] groups)
                  (fun _ => ret (mkConfig fs groups t tt mm bl (Z.of_nat (List.length fs))
                     (max_element_weight fs) (default_dice_prec fs)
                     (default_weight_prec bl (Z.of_nat (List.length fs)) (default_dice_prec fs))))).
  { unfold make_config. rewrite precision_assert_holds by exact Hbl. reflexivity. }
  split; [split|].
  - intros [Hk [Hd Hh]].
    pose proof (check_exchange_groups_spec fs groups [] Hk (NoDup_nil _)) as Hc.
    rewrite app_nil_r in Hc. rewrite Hmc.
    destruct (check_exchange_groups fs [] groups) as [e|u]; cbn [bind].
    + exfalso. destruct Hc as [_ Hnot]. exact (Hnot (conj Hd Hh)).
    + eexists. reflexivity.
  - intros [c Hc]. exact (make_config_groups _ _ _ _ _ _ _ Hc).
  - split; [|split; [|split]].
    + intros c Hc. destruct (make_config_inv _ _ _ _ _ _ _ Hc) as [_ ->]. split; reflexivity.
    + intros Hk Hnot.
      pose proof (check_exchange_groups_spec fs groups [] Hk (NoDup_nil _)) as Hc.
      rewrite app_nil_r in Hc. unfold groups_disjoint in Hnot. rewrite Hmc.
      destruct (check_exchange_groups fs [] groups) as [e|u]; cbn [bind].
      * destruct Hc as [[m ->] _]. exists m. reflexivity.
      * contradiction.
    + intros Hd Hh Hnk. rewrite Hmc.
      assert (Hd' : NoDup (List.concat groups ++ [])) by (rewrite app_nil_r; exact Hd).
      destruct (check_exchange_groups_dh fs [] groups Hd' Hh) as [[u Hu]|[Hu|[Hu Hin]]].
      * exfalso. exact (Hnk (check_exchange_groups_known _ _ _ _ Hu)).
      * rewrite Hu. left. reflexivity.
      * rewrite Hu. right. split; [reflexivity | exact Hin].
    + intros e. rewrite Hmc.
      destruct (check_exchange_groups fs [] groups) as [e'|u] eqn:Hc; cbn [bind].
      * intros H. injection H as <-. exact (check_exchange_groups_errors _ _ _ _ Hc).
      * discriminate.
Qed.

(** two fields of the same type and a group of both is accepted; listing
    [int_1] again in a second group is refused with [invalid_argument] *)
Lemma C9_exchange_group_checks_witness :
  1 <= 32 < SizeT.modulus /\
  (exists c, make_config two_ints [["int_1"%string; "int_2"%string]] (9 # 10) (7 # 10) false 32
               = inr c /\
             fields c = two_ints /\ exchange_groups c = [["int_1"%string; "int_2"%string]]) /\
  (exists m, make_config two_ints [["int_1"%string; "int_2"%string]; ["int_1"%string]]
               (9 # 10) (7 # 10) false 32 = inl (invalid_argument m)).
Proof.
  assert (Hbl : 1 <= 32 < SizeT.modulus) by (unfold SizeT.modulus, SizeT.width; lia).
  split; [exact Hbl|].
  assert (Hk : Forall (group_known two_ints) [["int_1"%string; "int_2"%string]]).
  { constructor; [|constructor]. split; [discriminate|].
    repeat constructor; vm_compute; discriminate. }
  assert (Hd : groups_disjoint [["int_1"%string; "int_2"%string]]).
  { unfold groups_disjoint. simpl. repeat constructor; simpl; intuition discriminate. }
  assert (Hh : Forall (group_homogeneous two_ints) [["int_1"%string; "int_2"%string]]).
  { constructor; [|constructor].
    intros x y fx fy Hx Hy Hfx Hfy.
    destruct Hx as [<-|[<-|[]]]; destruct Hy as [<-|[<-|[]]];
      vm_compute in Hfx, Hfy; injection Hfx as <-; injection Hfy as <-; split; reflexivity. }
  destruct (C9_exchange_group_checks two_ints [["int_1"%string; "int_2"%string]]
              (9 # 10) (7 # 10) false 32 Hbl) as [[Hok _] [Hst _]].
  destruct (Hok (conj Hk (conj Hd Hh))) as [c Hc].
  split; [exists c; split; [exact Hc | exact (Hst c Hc)]|].
  assert (Hk2 : Forall (group_known two_ints) [["int_1"%string; "int_2"%string]; ["int_1"%string]]).
  { repeat constructor; try discriminate; vm_compute; discriminate. }
  apply (proj1 (proj2 (proj2 (C9_exchange_group_checks two_ints
           [["int_1"%string; "int_2"%string]; ["int_1"%string]] (9 # 10) (7 # 10) false 32 Hbl)))
           Hk2).
  intros [Hd2 _]. unfold groups_disjoint in Hd2. simpl in Hd2.
  inversion Hd2 as [|? ? Hn _]. apply Hn. right. left. reflexivity.
Defined.

(** Every configuration the constructor accepts has exchange groups that are
    non-empty, name only configured fields, are pairwise disjoint (no field
    twice, in a group or across groups) and agree in comparator and bitsize
    within each group; this holds for every [bitlen]. *)
Theorem accepted_config_groups fs groups t t' mm bl c :
  make_config fs groups t t' mm bl = inr c ->
  Forall (group_known fs) groups /\ groups_disjoint groups /\
  Forall (group_homogeneous fs) groups.
Proof. exact (make_config_groups fs groups t t' mm bl c). Qed.

Lemma accepted_config_groups_witness :
  make_config int_only [["int_1"%string]] (9 # 10) (7 # 10) false 32 =
    inr (mkConfig int_only [["int_1"%string]] (9 # 10) (7 # 10) false 32 1 1 14 9) /\
  (Forall (group_known int_only) [["int_1"%string]] /\ groups_disjoint [["int_1"%string]] /\
   Forall (group_homogeneous int_only) [["int_1"%string]]).
Proof.
  assert (H : make_config int_only [["int_1"%string]] (9 # 10) (7 # 10) false 32 =
    inr (mkConfig int_only [["int_1"%string]] (9 # 10) (7 # 10) false 32 1 1 14 9))
    by (vm_compute; reflexivity).
  split; [exact H | exact (accepted_config_groups _ _ _ _ _ _ _ H)].
Defined.

(** [SELCircuit::field_weight] never throws on the pairs the circuit asks for
    in an accepted configuration: a configured field with itself, and any two
    fields of one exchange group (no [out_of_range], no type or bitsize
    mismatch). *)
Theorem accepted_config_field_weight rw fs groups t t' mm bl c :
  make_config fs groups t t' mm bl = inr c ->
  (forall i, at_key fs i <> None -> exists w, field_weight_r rw c i i = inr w) /\
  (forall g x y, In g groups -> In x g -> In y g ->
     exists w, field_weight_r rw c x y = inr w).
Proof.
  intros H. destruct (make_config_groups _ _ _ _ _ _ _ H) as [Hk [_ Hh]].
  destruct (make_config_inv _ _ _ _ _ _ _ H) as [_ ->].
  unfold field_weight_r; cbn [fields weight_prec max_weight]. split.
  - intros i Hi. destruct (at_key fs i) as [f|]; [|contradiction].
    destruct (comparator f); cbn; rewrite Z.eqb_refl; cbn; eexists; reflexivity.
  - intros g x y Hg Hx Hy.
    rewrite Forall_forall in Hk, Hh.
    destruct (Hk g Hg) as [_ Hgk]. rewrite Forall_forall in Hgk.
    destruct (at_key fs x) as [fx|] eqn:Hfx; [|exfalso; exact (Hgk x Hx Hfx)].
    destruct (at_key fs y) as [fy|] eqn:Hfy; [|exfalso; exact (Hgk y Hy Hfy)].
    destruct (Hh g Hg x y fx fy Hx Hy Hfx Hfy) as [Hc Hb].
    rewrite Hc, Hb, Z.eqb_refl.
    destruct (comparator fy); cbn; eexists; reflexivity.
Qed.

(** the two fields of the group [{int_1, int_2}] are compared *)
Lemma accepted_config_field_weight_witness :
  make_config two_ints [["int_1"%string; "int_2"%string]] (9 # 10) (7 # 10) false 32 =
    inr (mkConfig two_ints [["int_1"%string; "int_2"%string]] (9 # 10) (7 # 10) false 32
           2 2 14 8) /\
  exists w, field_weight_r (fun _ _ _ => 0)
              (mkConfig two_ints [["int_1"%string; "int_2"%string]] (9 # 10) (7 # 10) false 32
                 2 2 14 8)
              "int_1"%string "int_2"%string = inr w.
Proof.
  assert (H : make_config two_ints [["int_1"%string; "int_2"%string]] (9 # 10) (7 # 10) false 32 =
    inr (mkConfig two_ints [["int_1"%string; "int_2"%string]] (9 # 10) (7 # 10) false 32
           2 2 14 8))
    by (vm_compute; reflexivity).
  split; [exact H|].
  apply (proj2 (accepted_config_field_weight (fun _ _ _ => 0) _ _ _ _ _ _ _ H)
           ["int_1"%string; "int_2"%string]).
  - left; reflexivity.
  - left; reflexivity.
  - right; left; reflexivity.
Defined.

Lemma swap_next_perm x asc y asc' :
  swap_next x asc = Some (y, asc') -> Permutation (x :: asc) (y :: asc').
Proof.
  revert y asc'. induction asc as [|z r IH]; intros y asc' H; simpl in H; [discriminate|].
  destruct (String.ltb x z).
  - injection H as <- <-. apply perm_swap.
  - destruct (swap_next x r) as [[w r']|] eqn:E; [|discriminate].
    injection H as <- <-.
    eapply Permutation_trans; [apply perm_swap|].
    eapply Permutation_trans; [apply perm_skip; exact (IH _ _ eq_refl)|]. apply perm_swap.
Qed.

(** [std::next_permutation] only rearranges the names *)
Lemma next_permutation_perm l : Permutation l (snd (next_permutation l)).
Proof.
  induction l as [|x rest IH]; simpl; [reflexivity|].
  destruct (next_permutation rest) as [[] r] eqn:E; simpl in IH |- *.
  - apply perm_skip. exact IH.
  - destruct (swap_next x r) as [[y r']|] eqn:Es; simpl.
    + eapply Permutation_trans; [apply perm_skip; exact IH|]. exact (swap_next_perm _ _ _ _ Es).
    + eapply Permutation_trans; [apply perm_skip; exact IH|].
      change (x :: r) with ([x] ++ r). apply Permutation_app_comm.
Qed.

Lemma field_weight_r_ok rw c x y fx fy :
  at_key (fields c) x = Some fx -> at_key (fields c) y = Some fy ->
  comparator fx = comparator fy -> bitsize fx = bitsize fy ->
  exists w, field_weight_r rw c x y = inr w.
Proof.
  intros Hx Hy Hc Hb. unfold field_weight_r. rewrite Hx, Hy, Hc, Hb, Z.eqb_refl.
  rewrite (proj2 (comparator_eqb_spec (comparator fy) (comparator fy)) eq_refl).
  eexists. reflexivity.
Qed.

Lemma map_result_forall {A B} (f : A -> result B) l :
  (forall x, In x l -> exists y, f x = inr y) -> exists ys, map_result f l = inr ys.
Proof.
  induction l as [|x l IH]; intros H; simpl; [eexists; reflexivity|].
  destruct (H x (or_introl eq_refl)) as [y ->]. cbn [bind].
  destruct IH as [ys ->]; [intros z Hz; exact (H z (or_intror Hz))|].
  eexists. reflexivity.
Qed.

Lemma perm_field_weights_ok rw c group perm :
  Forall (fun x => at_key (fields c) x <> None) group -> group_homogeneous (fields c) group ->
  incl perm group -> exists u, perm_field_weights rw c group perm = inr u.
Proof.
  intros Hk Hh Hp. unfold perm_field_weights.
  destruct (map_result_forall (fun p => field_weight_r rw c (fst p) (snd p)) (combine group perm))
    as [ys ->]; [|eexists; reflexivity].
  intros [x y] Hxy. cbn [fst snd].
  pose proof (in_combine_l _ _ _ _ Hxy) as Hx. pose proof (Hp y (in_combine_r _ _ _ _ Hxy)) as Hy.
  rewrite Forall_forall in Hk.
  destruct (at_key (fields c) x) as [fx|] eqn:Hfx; [|exfalso; exact (Hk x Hx Hfx)].
  destruct (at_key (fields c) y) as [fy|] eqn:Hfy; [|exfalso; exact (Hk y Hy Hfy)].
  destruct (Hh x y fx fy Hx Hy Hfx Hfy) as [Hc Hb].
  exact (field_weight_r_ok rw c x y fx fy Hfx Hfy Hc Hb).
Qed.

Lemma perm_loop_ok rw c group fuel perm :
  Forall (fun x => at_key (fields c) x <> None) group -> group_homogeneous (fields c) group ->
  incl perm group -> exists u, perm_loop rw c group fuel perm = inr u.
Proof.
  intros Hk Hh. revert perm. induction fuel as [|fuel IH]; intros perm Hp; cbn [perm_loop];
    destruct (perm_field_weights_ok rw c group perm Hk Hh Hp) as [u ->]; cbn [bind];
    [eexists; reflexivity|].
  pose proof (next_permutation_perm perm) as Hperm.
  destruct (next_permutation perm) as [more perm'] eqn:E. simpl in Hperm.
  destruct more; [|eexists; reflexivity].
  apply IH. intros z Hz. apply Hp. exact (Permutation_in z (Permutation_sym Hperm) Hz).
Qed.

(** a group of configured fields that agree in type and bitsize: every
    arrangement [best_group_weight] tries is compared without an exception *)
Lemma best_group_weight_ok rw c g :
  group_known (fields c) g -> group_homogeneous (fields c) g ->
  exists u, best_group_weight rw c g = inr u.
Proof.
  intros [_ Hk] Hh. unfold best_group_weight. apply perm_loop_ok; [exact Hk | exact Hh|].
  intros z Hz; exact Hz.
Qed.

Lemma perm_field_weights_unknown rw c g :
  Exists (fun x => at_key (fields c) x = None) g ->
  map_result (fun p => field_weight_r rw c (fst p) (snd p)) (combine g g) = inl out_of_range.
Proof.
  induction g as [|x g IH]; intros H; [inversion H|].
  cbn [combine map_result fst snd]. unfold field_weight_r at 1.
  destruct (at_key (fields c) x) as [f|] eqn:Hf; [|reflexivity].
  rewrite (proj2 (comparator_eqb_spec (comparator f) (comparator f)) eq_refl), Z.eqb_refl.
  cbn [negb bind ret].
  inversion H as [? ? Hx|? ? Hg]; subst; [congruence|]. rewrite (IH Hg). reflexivity.
Qed.

(** the first round pairs each name with itself: the first unconfigured
    name throws [std::out_of_range] from [cfg.fields.at] *)
Lemma best_group_weight_unknown rw c g :
  Exists (fun x => at_key (fields c) x = None) g ->
  best_group_weight rw c g = inl out_of_range.
Proof.
  intros H. unfold best_group_weight.
  destruct (fact (List.length g)); cbn [perm_loop]; unfold perm_field_weights;
    rewrite (perm_field_weights_unknown rw c g H); reflexivity.
Qed.

Lemma in_names_at_key fs i : In i (map fst fs) -> at_key fs i <> None.
Proof.
  induction fs as [|[k f] fs IH]; simpl; intros H; [contradiction|].
  destruct (String.eqb_spec i k) as [->|Hne]; [discriminate|].
  destruct H as [->|H]; [contradiction | exact (IH H)].
Qed.

Lemma group_weights_spec_in W (bgw : IndexSet -> result W) groups s :
  Forall (fun g => exists w, bgw g = inr w) groups -> NoDup s ->
  match group_weights W bgw s groups with
  | inr p => List.length (fst p) = List.length groups /\
             Permutation s (List.concat groups ++ snd p)
  | inl e => e = runtime_error msg_distinct /\
             ~ exists r, Permutation s (List.concat groups ++ r)
  end.
Proof.
  intros Htot. revert s. induction groups as [|g rest IH]; intros s Hs; simpl.
  - split; reflexivity.
  - inversion Htot as [|? ? [w Hw] Hrest]; subst. rewrite Hw. cbn [bind].
    pose proof (erase_group_spec g s Hs) as Hg.
    destruct (erase_group s g) as [e|s']; cbn [bind].
    + destruct Hg as [He Hnot]. split; [exact He|].
      intros [r Hr]. apply Hnot. exists (List.concat rest ++ r). rewrite app_assoc. exact Hr.
    + assert (Hs' : NoDup s')
        by (exact (NoDup_app_remove_l _ _ (Permutation_NoDup Hg Hs))).
      specialize (IH Hrest s' Hs').
      destruct (group_weights W bgw s' rest) as [e|p]; cbn [bind].
      * destruct IH as [He Hnot]. split; [exact He|].
        intros [r Hr]. apply Hnot. exists r.
        apply (Permutation_app_inv_l g).
        eapply Permutation_trans; [apply Permutation_sym; exact Hg|].
        rewrite app_assoc. exact Hr.
      * destruct IH as [Hlen Hp]. simpl. split; [lia|].
        rewrite <- app_assoc. eapply Permutation_trans; [exact Hg|].
        apply Permutation_app_head. exact Hp.
Qed.

Lemma field_weights_spec_in W (bgw : IndexSet -> result W) (sfw : FieldName -> result W) c :
  NoDup (map fst (fields c)) ->
  Forall (fun g => exists w, bgw g = inr w) (exchange_groups c) ->
  (forall i, In i (map fst (fields c)) -> exists w, sfw i = inr w) ->
  match field_weights W bgw sfw c with
  | inr ws => exists rest,
      Permutation (map fst (fields c)) (List.concat (exchange_groups c) ++ rest) /\
      List.length ws = (List.length (exchange_groups c) + List.length rest)%nat /\
      (forall i, In i rest <-> In i (map fst (fields c)) /\ ~ In i (List.concat (exchange_groups c)))
  | inl e => e = runtime_error msg_distinct /\
      ~ (NoDup (List.concat (exchange_groups c)) /\
         incl (List.concat (exchange_groups c)) (map fst (fields c)))
  end.
Proof.
  intros Hnd Hg Hs. unfold field_weights.
  pose proof (group_weights_spec_in W bgw (exchange_groups c) _ Hg Hnd) as H.
  destruct (group_weights W bgw (map fst (fields c)) (exchange_groups c)) as [e|[gws rest]];
    cbn [bind fst snd].
  - destruct H as [He Hnot]. split; [exact He|].
    rewrite <- extractable_iff by exact Hnd. exact Hnot.
  - destruct H as [Hlen Hp]. simpl in Hlen, Hp.
    destruct (map_result_forall sfw rest) as [ys Hys].
    { intros i Hi. apply Hs. apply (Permutation_in i (Permutation_sym Hp)).
      apply in_or_app. right. exact Hi. }
    rewrite Hys. cbn [bind].
    assert (Hl : List.length ys = List.length rest).
    { clear - Hys. revert ys Hys. induction rest as [|x r IH]; intros ys Hys; simpl in Hys.
      - injection Hys as <-. reflexivity.
      - destruct (sfw x); [discriminate|]. cbn [bind] in Hys.
        destruct (map_result sfw r) as [|ys']; [discriminate|]. cbn [bind] in Hys.
        injection Hys as <-. simpl. f_equal. exact (IH _ eq_refl). }
    exists rest. split; [exact Hp|]. split; [rewrite length_app; lia|].
    pose proof (Permutation_NoDup Hp Hnd) as Hnd'.
    intros i. split.
    + intros Hi. split.
      * apply (Permutation_in i (Permutation_sym Hp)). apply in_or_app. right. exact Hi.
      * intros Hc. exact (NoDup_app_disjoint _ _ i Hnd' Hc Hi).
    + intros [Hi Hc]. apply (Permutation_in i Hp) in Hi. apply in_app_or in Hi.
      destruct Hi as [Hi|Hi]; [contradiction | exact Hi].
Qed.

(** Step 1 of [SELCircuit::build_circuit], with the circuit's
    [best_group_weight] (all arrangements of each group) and [field_weight].
    For a [std::map] of fields and exchange groups that name configured
    fields agreeing in type and bitsize within each group, collecting the
    field weights throws [runtime_error("Exchange groups must be distinct!")]
    exactly when some field is listed in two groups; otherwise every group
    gives one weight and every field outside all groups gives one, so each
    configured field is covered exactly once.  If the first group names an
    unconfigured field, [best_group_weight] runs first and [cfg.fields.at]
    throws [std::out_of_range]. *)
Theorem build_field_weights_partition rw c :
  NoDup (map fst (fields c)) ->
  (Forall (group_known (fields c)) (exchange_groups c) ->
   Forall (group_homogeneous (fields c)) (exchange_groups c) ->
   match build_field_weights rw c with
   | inr ws => exists rest,
       Permutation (map fst (fields c)) (List.concat (exchange_groups c) ++ rest) /\
       List.length ws = (List.length (exchange_groups c) + List.length rest)%nat /\
       (forall i, In i rest <-> In i (map fst (fields c)) /\ ~ In i (List.concat (exchange_groups c)))
   | inl e => e = runtime_error msg_distinct /\ ~ groups_disjoint (exchange_groups c)
   end) /\
  (forall g gs, exchange_groups c = g :: gs -> Exists (fun x => at_key (fields c) x = None) g ->
   build_field_weights rw c = inl out_of_range).
Proof.
  intros Hnd. split.
  - intros Hk Hh.
    assert (Hg : Forall (fun g => exists w, best_group_weight rw c g = inr w) (exchange_groups c)).
    { rewrite Forall_forall in Hk, Hh |- *. intros g Hin.
      exact (best_group_weight_ok rw c g (Hk g Hin) (Hh g Hin)). }
    assert (Hs : forall i, In i (map fst (fields c)) -> exists w, single_field_weight rw c i = inr w).
    { intros i Hi. pose proof (in_names_at_key _ _ Hi) as Hi'. unfold single_field_weight.
      destruct (at_key (fields c) i) as [f|] eqn:Hf; [|contradiction].
      destruct (field_weight_r_ok rw c i i f f Hf Hf eq_refl eq_refl) as [w ->].
      eexists. reflexivity. }
    pose proof (field_weights_spec_in unit _ _ c Hnd Hg Hs) as H.
    unfold build_field_weights.
    destruct (field_weights unit (best_group_weight rw c) (single_field_weight rw c) c) as [e|ws];
      [|exact H].
    destruct H as [He Hnot]. split; [exact He|].
    intros Hd. apply Hnot. split; [exact Hd|].
    intros x Hx. apply in_concat in Hx. destruct Hx as [g [Hg' Hxg]].
    rewrite Forall_forall in Hk. destruct (Hk g Hg') as [_ Hgk].
    rewrite Forall_forall in Hgk. exact (at_key_in _ x (Hgk x Hxg)).
  - intros g gs Hc Hu. unfold build_field_weights, field_weights. rewrite Hc.
    cbn [group_weights]. rewrite (best_group_weight_unknown rw c g Hu). reflexivity.
Qed.

(** [int_1] in two groups: "Exchange groups must be distinct!"; a group
    naming [int_2], which is not configured: [std::out_of_range] *)
Lemma build_field_weights_partition_witness :
  NoDup (map fst int_only) /\
  build_field_weights (fun _ _ _ => 0)
    (mkConfig int_only [["int_1"%string]; ["int_1"%string]] (9 # 10) (7 # 10) false 32 1 1 14 9)
    = inl (runtime_error msg_distinct) /\
  build_field_weights (fun _ _ _ => 0)
    (mkConfig int_only [["int_2"%string]] (9 # 10) (7 # 10) false 32 1 1 14 9)
    = inl out_of_range.
Proof.
  assert (Hnd : NoDup (map fst int_only)) by (simpl; repeat constructor; simpl; tauto).
  split; [exact Hnd|].
  split.
  - assert (Hk : Forall (group_known int_only) [["int_1"%string]; ["int_1"%string]])
      by (repeat constructor; try discriminate; vm_compute; discriminate).
    assert (Hh : Forall (group_homogeneous int_only) [["int_1"%string]; ["int_1"%string]]).
    { assert (H1 : group_homogeneous int_only ["int_1"%string]).
      { intros x y fx fy Hx Hy Hfx Hfy. destruct Hx as [<-|[]]; destruct Hy as [<-|[]].
        rewrite Hfx in Hfy; injection Hfy as <-; split; reflexivity. }
      constructor; [exact H1 | constructor; [exact H1 | constructor]]. }
    pose proof (proj1 (build_field_weights_partition (fun _ _ _ => 0)
                  (mkConfig int_only [["int_1"%string]; ["int_1"%string]] (9 # 10) (7 # 10)
                     false 32 1 1 14 9) Hnd) Hk Hh) as H.
    destruct (build_field_weights _ _) as [e|ws].
    + destruct H as [-> _]. reflexivity.
    + exfalso. destruct H as [rest [Hp _]]. apply Permutation_length in Hp. simpl in Hp. lia.
  - apply (proj2 (build_field_weights_partition (fun _ _ _ => 0)
             (mkConfig int_only [["int_2"%string]] (9 # 10) (7 # 10) false 32 1 1 14 9) Hnd)
             ["int_2"%string] []); [reflexivity|].
    constructor. reflexivity.
Defined.

(** For a configuration accepted by the constructor (its field names being
    the distinct keys of a [std::map]), step 1 of [build_circuit] never throws
    "Exchange groups must be distinct!": the constructor's checks imply the
    circuit's. *)
Theorem accepted_config_field_weights W bgw sfw fs groups t t' mm bl c :
  make_config fs groups t t' mm bl = inr c -> NoDup (map fst fs) ->
  (forall g, exists w, bgw g = inr w) -> (forall i, exists w, sfw i = inr w) ->
  exists ws, field_weights W bgw sfw c = inr ws.
Proof.
  intros H Hnd Hg Hs.
  destruct (make_config_groups _ _ _ _ _ _ _ H) as [Hk [Hdis _]].
  destruct (make_config_inv _ _ _ _ _ _ _ H) as [_ Hc].
  assert (Hnd' : NoDup (map fst (fields c))) by (rewrite Hc; exact Hnd).
  pose proof (field_weights_spec W bgw sfw c Hnd' Hg Hs) as Hw.
  destruct (field_weights W bgw sfw c) as [e|ws]; [|exists ws; reflexivity].
  exfalso. destruct Hw as [_ Hnot]. apply Hnot. rewrite Hc. cbn [fields exchange_groups].
  split; [exact Hdis|].
  intros x Hx. apply in_concat in Hx. destruct Hx as [g [Hg' Hxg]].
  rewrite Forall_forall in Hk. destruct (Hk g Hg') as [_ Hgk].
  rewrite Forall_forall in Hgk. specialize (Hgk x Hxg).
  exact (at_key_in fs x Hgk).
Qed.

Lemma accepted_config_field_weights_witness :
  make_config int_only [["int_1"%string]] (9 # 10) (7 # 10) false 32 =
    inr (mkConfig int_only [["int_1"%string]] (9 # 10) (7 # 10) false 32 1 1 14 9) /\
  NoDup (map fst int_only) /\
  exists ws, field_weights unit (fun _ => ret tt) (fun _ => ret tt)
    (mkConfig int_only [["int_1"%string]] (9 # 10) (7 # 10) false 32 1 1 14 9) = inr ws.
Proof.
  assert (H : make_config int_only [["int_1"%string]] (9 # 10) (7 # 10) false 32 =
    inr (mkConfig int_only [["int_1"%string]] (9 # 10) (7 # 10) false 32 1 1 14 9))
    by (vm_compute; reflexivity).
  assert (Hnd : NoDup (map fst int_only)) by (simpl; repeat constructor; simpl; tauto).
  split; [exact H | split; [exact Hnd|]].
  exact (accepted_config_field_weights unit (fun _ => ret tt) (fun _ => ret tt) _ _ _ _ _ _ _
           H Hnd (fun _ => ex_intro _ tt eq_refl) (fun _ => ex_intro _ tt eq_refl)).
Defined.

(** ** [SELCircuit::set_constants] *)

(** The constant index vector of [set_constants(nvals)] holds exactly
    [0, 1, ..., nvals-1]: no index is truncated by the width
    [ceil_log2_min1(nvals)] of its constant. *)
Theorem set_constants_index_vector nvals :
  const_idx nvals = map Z.of_nat (seq 0 (Z.to_nat nvals)).
Proof.
  unfold const_idx, ceil_log2_min1. apply map_ext_in. intros i Hi.
  apply in_seq in Hi. apply Z.mod_small. split; [lia|].
  assert (Hn : Z.of_nat i < nvals) by lia.
  assert (H2 : nvals <= 2 ^ Z.max 1 (Z.log2_up nvals)).
  { destruct (Z.le_gt_cases nvals 1) as [Hle|Hgt].
    - assert (2 ^ 1 <= 2 ^ Z.max 1 (Z.log2_up nvals))
        by (apply Z.pow_le_mono_r; lia).
      lia.
    - destruct (Z.log2_up_spec nvals Hgt) as [_ Hup].
      assert (2 ^ Z.log2_up nvals <= 2 ^ Z.max 1 (Z.log2_up nvals))
        by (apply Z.pow_le_mono_r; [lia | pose proof (Z.log2_up_nonneg nvals); lia]).
      lia. }
  lia.
Qed.

(** ** Hamming weight *)

Lemma popcount8_bounds b : 0 <= popcount8 b <= 8.
Proof.
  unfold popcount8. cbn [map fold_right].
  repeat match goal with |- context [Z.testbit b ?k] => destruct (Z.testbit b k) end;
    cbn; lia.
Qed.

Lemma circ_wrap_0 BitLen : circ_wrap BitLen 0 = 0.
Proof. unfold circ_wrap. destruct (2 ^ BitLen); reflexivity. Qed.

Lemma popcount8_zero : popcount8 0 = 0.
Proof. reflexivity. Qed.

Lemma hw_fold BitLen bm m :
  fold_left (fun n b => circ_wrap BitLen (n + popcount8 b)) bm (circ_wrap BitLen m) =
  circ_wrap BitLen (m + fold_right Z.add 0 (map popcount8 bm)).
Proof.
  revert m. induction bm as [|b bm IH]; intros m; cbn [fold_left fold_right map].
  - rewrite Z.add_0_r. reflexivity.
  - assert (Hw : circ_wrap BitLen (circ_wrap BitLen m + popcount8 b) =
                 circ_wrap BitLen (m + popcount8 b)).
    { unfold circ_wrap. destruct (Z.eq_dec (2 ^ BitLen) 0) as [H0|H0].
      - rewrite H0, !Z.mod_0_r. reflexivity.
      - apply Z.add_mod_idemp_l. exact H0. }
    rewrite Hw, IH. f_equal. ring.
Qed.

Lemma hw_sum BitLen bm :
  hw BitLen bm = circ_wrap BitLen (fold_right Z.add 0 (map popcount8 bm)).
Proof.
  unfold hw. replace 0 with (circ_wrap BitLen 0) at 1 by apply circ_wrap_0.
  rewrite hw_fold. reflexivity.
Qed.

Lemma popcount_sum_bounds bm :
  0 <= fold_right Z.add 0 (map popcount8 bm) <= 8 * Z.of_nat (List.length bm).
Proof.
  induction bm as [|b bm IH]; cbn [map fold_right List.length]; [lia|].
  pose proof (popcount8_bounds b). lia.
Qed.

Lemma hw_zeros BitLen k : hw BitLen (repeat 0 k) = 0.
Proof.
  rewrite hw_sum. replace (fold_right Z.add 0 (map popcount8 (repeat 0 k))) with 0.
  - symmetry. apply (circ_wrap_0 BitLen).
  - induction k as [|k IH]; [reflexivity|]. cbn [repeat map fold_right].
    rewrite popcount8_zero, <- IH. reflexivity.
Qed.

(** [hw(bm)] is the byte-wise population count taken modulo [2^BitLen]: the
    count itself lies in [0, 8 * bytes], it adds up over concatenated masks
    (modulo [2^BitLen]), and the all-zero mask that an empty field entry
    becomes has weight 0. *)
Theorem hw_popcount BitLen :
  (forall bm, hw BitLen bm = circ_wrap BitLen (fold_right Z.add 0 (map popcount8 bm)) /\
              0 <= fold_right Z.add 0 (map popcount8 bm) <= 8 * Z.of_nat (List.length bm)) /\
  (forall a b, hw BitLen (a ++ b) = circ_wrap BitLen (hw BitLen a + hw BitLen b)) /\
  (forall k, hw BitLen (repeat 0 k) = 0).
Proof.
  split; [|split].
  - intros bm. split; [apply hw_sum | apply popcount_sum_bounds].
  - intros a b. rewrite !hw_sum, map_app.
    assert (Hs : forall l1 l2, fold_right Z.add 0 (l1 ++ l2) =
                               fold_right Z.add 0 l1 + fold_right Z.add 0 l2)
      by (induction l1 as [|x l1 IH]; intros l2; cbn; [reflexivity | rewrite IH; ring]).
    rewrite Hs. unfold circ_wrap.
    destruct (Z.eq_dec (2 ^ BitLen) 0) as [H0|H0].
    + rewrite H0, !Z.mod_0_r. reflexivity.
    + rewrite Z.add_mod by exact H0. reflexivity.
  - apply hw_zeros.
Qed.

(** ** Inputs: [EpilinkServerInput] and [set_real_*_input] *)

Lemma map_result_spec {A B} (f : A -> result B) (P : A -> Prop) (R : A -> B -> Prop)
    (E : exn -> Prop) l :
  (forall x, In x l -> match f x with
                       | inr y => P x /\ R x y
                       | inl e => ~ P x /\ E e
                       end) ->
  match map_result f l with
  | inr ys => Forall P l /\ Forall2 R l ys
  | inl e => ~ Forall P l /\ E e
  end.
Proof.
  induction l as [|x l IH]; intros H; simpl.
  - split; constructor.
  - specialize (H x (or_introl eq_refl)) as Hx.
    assert (IH' := IH (fun y Hy => H y (or_intror Hy))).
    destruct (f x) as [e|y]; cbn [bind].
    + destruct Hx as [Hn He]. split; [|exact He]. intros Hf. inversion Hf. contradiction.
    + destruct Hx as [Hp Hr].
      destruct (map_result f l) as [e|ys]; cbn [bind].
      * destruct IH' as [Hn He]. split; [|exact He]. intros Hf. inversion Hf. contradiction.
      * destruct IH' as [Hp' Hr']. split; constructor; assumption.
Qed.

Lemma lookup_in {A} (m : list (FieldName * A)) k v : lookup m k = Some v -> In (k, v) m.
Proof.
  induction m as [|[k' v'] m IH]; simpl; [discriminate|].
  destruct (String.eqb_spec k k') as [->|_]; intros H.
  - injection H as <-. left. reflexivity.
  - right. exact (IH H).
Qed.

Lemma bitbytes_nonneg bits : 0 <= bits -> 0 <= bitbytes bits.
Proof. intros H. unfold bitbytes. apply Z.div_pos; lia. Qed.

Lemma length_value_or_zero bs e :
  0 <= bs -> e = None -> Z.of_nat (List.length (value_or_zero bs e)) = bs.
Proof. intros H ->. simpl. rewrite repeat_length. lia. Qed.

Lemma check_columns_spec sm db n :
  match check_columns sm db n with
  | inr _ => Forall (fun p => Z.of_nat (List.length (snd p)) = n) db
  | inl e => exists k col, In (k, col) db /\ Z.of_nat (List.length col) <> n /\
             e = sm ("database field " ++ k)%string
  end.
Proof.
  induction db as [|[k col] db IH]; simpl; [constructor|].
  unfold check_vector_size.
  destruct (Z.eqb_spec (Z.of_nat (List.length col)) n) as [Hl|Hl]; cbn [bind].
  - destruct (check_columns sm db n) as [e|u].
    + destruct IH as [k' [col' [Hin [Hn He]]]]. exists k', col'. split; [right; exact Hin|].
      split; assumption.
    + constructor; assumption.
  - exists k, col. split; [left; reflexivity | split; [exact Hl | reflexivity]].
Qed.

(** [EpilinkServerInput]'s constructor: an empty database is undefined
    behaviour; otherwise [nvals] is the first column's size and the
    constructor throws for the first column of another size, so an accepted
    input has all columns of [nvals] rows. Columns that are all empty are
    accepted, with [nvals = 0]. *)
Lemma make_server_input_spec sm db :
  match make_server_input sm db with
  | inr input => database input = db /\
      (exists k col rest, db = (k, col) :: rest /\ snvals input = Z.of_nat (List.length col)) /\
      Forall (fun p => Z.of_nat (List.length (snd p)) = snvals input) db
  | inl e => (db = [] /\ e = undefined_behaviour) \/
      (exists k0 col0 rest k col, db = (k0, col0) :: rest /\ In (k, col) db /\
         List.length col <> List.length col0 /\ e = sm ("database field " ++ k)%string)
  end.
Proof.
  destruct db as [|[k0 col0] rest]; [left; split; reflexivity|].
  unfold make_server_input.
  pose proof (check_columns_spec sm ((k0, col0) :: rest) (Z.of_nat (List.length col0))) as H.
  destruct (check_columns sm ((k0, col0) :: rest) (Z.of_nat (List.length col0))) as [e|u];
    cbn [bind].
  - right. destruct H as [k [col [Hin [Hn He]]]].
    exists k0, col0, rest, k, col. split; [reflexivity|]. split; [exact Hin|].
    split; [lia | exact He].
  - split; [reflexivity|]. split; [|exact H].
    exists k0, col0, rest. split; reflexivity.
Qed.

(** what a configured field needs from the client's record *)
Definition client_field_ok (rec : list (FieldName * FieldEntry)) (i : FieldName)
    (f : ML_Field) : Prop :=
  exists entry, lookup rec i = Some entry /\
    forall v, entry = Some v -> Z.of_nat (List.length v) = bitbytes (bitsize f).

(** the shares set for a configured field of the client's record *)
Definition client_field_shares (BitLen nvals : Z) (rec : list (FieldName * FieldEntry))
    (i : FieldName) (f : ML_Field) (vi : ValueInput) : Prop :=
  exists entry, lookup rec i = Some entry /\
    val vi = repeat (value_or_zero (bitbytes (bitsize f)) entry) (Z.to_nat nvals) /\
    delta vi = repeat (has_value entry) (Z.to_nat nvals) /\
    (entry = None -> comparator f = DICE -> hw_share vi = Some (repeat 0 (Z.to_nat nvals))).

Lemma client_value_input_spec BitLen sm nvals rec i f :
  0 <= bitsize f ->
  match client_value_input BitLen sm nvals rec i f with
  | inr vi => client_field_ok rec i f /\ client_field_shares BitLen nvals rec i f vi
  | inl e => ~ client_field_ok rec i f /\ (e = out_of_range \/ exists w, e = sm w)
  end.
Proof.
  intros Hb. pose proof (bitbytes_nonneg _ Hb) as Hbs.
  unfold client_value_input, client_field_ok, client_field_shares. cbv zeta.
  destruct (lookup rec i) as [entry|] eqn:Hl.
  2:{ split; [intros [entry [H _]]; discriminate | left; reflexivity]. }
  unfold check_vector_size.
  destruct entry as [v|].
  - cbn [value_or_zero].
    destruct (Z.eqb_spec (Z.of_nat (List.length v)) (bitbytes (bitsize f))) as [Hv|Hv];
      cbn [bind].
    + split.
      * exists (Some v). split; [reflexivity|]. intros v' Hv'. injection Hv' as <-. exact Hv.
      * exists (Some v). split; [reflexivity|]. split; [reflexivity|].
        split; [reflexivity | discriminate].
    + split; [|right; eexists; reflexivity].
      intros [entry [He Hlen]]. injection He as <-. exact (Hv (Hlen v eq_refl)).
  - rewrite (length_value_or_zero _ None Hbs eq_refl), Z.eqb_refl. cbn [bind].
    split.
    + exists None. split; [reflexivity | discriminate].
    + exists None. split; [reflexivity|]. split; [reflexivity|]. split; [reflexivity|].
      intros _ Hd. cbn [hw_share]. rewrite Hd. cbn [value_or_zero]. rewrite hw_zeros.
      reflexivity.
Qed.

(** [SELCircuit::set_client_input]: with [nvals = 0] the assertion of
    [set_real_client_input] fails; otherwise it fails ([std::out_of_range] for
    a field missing from the record, the size check for a value of the wrong
    byte length) exactly when some configured field has no entry or a value
    of other than [bitbytes(bitsize)] bytes, and on success sets, per field
    and lane, the value (the all-zero mask of [bitbytes(bitsize)] bytes for an
    empty entry), [delta] = 0/1 for empty/present and, for an empty
    set-similarity field, Hamming weight 0. *)
Theorem client_input_marshalling BitLen sm c input :
  Forall (fun p => 0 <= bitsize (snd p)) (fields c) ->
  (uint32 (cnvals input) = 0 -> set_client_input BitLen sm c input = inl assertion_failed) /\
  (0 < uint32 (cnvals input) ->
   match set_client_input BitLen sm c input with
   | inr ins =>
       Forall (fun p => client_field_ok (record input) (fst p) (snd p)) (fields c) /\
       Forall2 (fun p q => fst q = fst p /\
                  client_field_shares BitLen (uint32 (cnvals input)) (record input)
                    (fst p) (snd p) (snd q)) (fields c) ins
   | inl e => ~ Forall (fun p => client_field_ok (record input) (fst p) (snd p)) (fields c) /\
              (e = out_of_range \/ exists w, e = sm w)
   end).
Proof.
  intros Hb. unfold set_client_input, set_real_client_input. split.
  - intros H0. rewrite H0. reflexivity.
  - intros Hn. destruct (Z.ltb_spec 0 (uint32 (cnvals input))) as [_|]; [|lia]. cbn [negb].
    apply map_result_spec. intros [i f] Hin. rewrite Forall_forall in Hb.
    specialize (Hb _ Hin). cbn [fst snd] in *.
    pose proof (client_value_input_spec BitLen sm (uint32 (cnvals input)) (record input) i f Hb)
      as H.
    destruct (client_value_input BitLen sm (uint32 (cnvals input)) (record input) i f)
      as [e|vi]; cbn [bind]; [exact H|].
    destruct H as [Hok Hsh]. split; [exact Hok | split; [reflexivity | exact Hsh]].
Qed.

Lemma client_input_marshalling_witness :
  Forall (fun p => 0 <= bitsize (snd p)) (fields demo_config) /\
  ((uint32 1 = 0 -> set_client_input 32 invalid_argument demo_config
                      (mkClientInput [("int_1"%string, None)] 1) = inl assertion_failed) /\
   (0 < uint32 1 ->
    match set_client_input 32 invalid_argument demo_config
            (mkClientInput [("int_1"%string, None)] 1) with
    | inr ins =>
        Forall (fun p => client_field_ok [("int_1"%string, None)] (fst p) (snd p))
          (fields demo_config) /\
        Forall2 (fun p q => fst q = fst p /\
                   client_field_shares 32 (uint32 1) [("int_1"%string, None)]
                     (fst p) (snd p) (snd q)) (fields demo_config) ins
    | inl e => ~ Forall (fun p => client_field_ok [("int_1"%string, None)] (fst p) (snd p))
                   (fields demo_config) /\
               (e = out_of_range \/ exists w, e = invalid_argument w)
    end)) /\
  set_client_input 32 invalid_argument demo_config (mkClientInput [("int_1"%string, None)] 1)
    = inr [("int_1"%string, mkValueInput [[0; 0; 0; 0]] None [0])].
Proof.
  assert (Hb : Forall (fun p => 0 <= bitsize (snd p)) (fields demo_config))
    by (constructor; [simpl; lia | constructor]).
  split; [exact Hb|]. split.
  - exact (client_input_marshalling 32 invalid_argument demo_config
             (mkClientInput [("int_1"%string, None)] 1) Hb).
  - vm_compute. reflexivity.
Defined.

(** [EpilinkServerInput]'s constructor: an empty database is undefined
    behaviour; otherwise [nvals] is the first column's size and the
    constructor throws for a column of another size, so an accepted input
    has all columns of [nvals] rows. Columns that are all empty are accepted,
    with [nvals = 0]. *)
Theorem server_input_constructor sm db :
  match make_server_input sm db with
  | inr input => database input = db /\
      (exists k col rest, db = (k, col) :: rest /\ snvals input = Z.of_nat (List.length col)) /\
      Forall (fun p => Z.of_nat (List.length (snd p)) = snvals input) db
  | inl e => (db = [] /\ e = undefined_behaviour) \/
      (exists k0 col0 rest k col, db = (k0, col0) :: rest /\ In (k, col) db /\
         List.length col <> List.length col0 /\ e = sm ("database field " ++ k)%string)
  end.
Proof. exact (make_server_input_spec sm db). Qed.

(** what a configured field needs from the server's database *)
Definition server_field_ok (db : list (FieldName * VFieldEntry)) (i : FieldName)
    (f : ML_Field) : Prop :=
  exists entries, lookup db i = Some entries /\
    forall v, In (Some v) entries -> Z.of_nat (List.length v) = bitbytes (bitsize f).

(** the shares set for a configured field of the database *)
Definition server_field_shares (BitLen : Z) (db : list (FieldName * VFieldEntry))
    (i : FieldName) (f : ML_Field) (vi : ValueInput) : Prop :=
  exists entries, lookup db i = Some entries /\
    val vi = map (value_or_zero (bitbytes (bitsize f))) entries /\
    delta vi = map has_value entries /\
    (comparator f = DICE ->
     hw_share vi = Some (hw_vec BitLen (map (value_or_zero (bitbytes (bitsize f))) entries))).

Lemma check_vectors_size_values sm bs what entries :
  0 <= bs ->
  match check_vectors_size sm (map (value_or_zero bs) entries) bs what with
  | inr _ => forall v, In (Some v) entries -> Z.of_nat (List.length v) = bs
  | inl e => e = sm what /\ exists v, In (Some v) entries /\ Z.of_nat (List.length v) <> bs
  end.
Proof.
  intros Hbs. induction entries as [|en entries IH]; cbn [map check_vectors_size].
  - intros v [].
  - unfold check_vector_size at 1.
    destruct en as [v|].
    + cbn [value_or_zero].
      destruct (Z.eqb_spec (Z.of_nat (List.length v)) bs) as [Hv|Hv]; cbn [bind].
      * destruct (check_vectors_size sm (map (value_or_zero bs) entries) bs what) as [e|u].
        -- destruct IH as [He [v' [Hin Hn]]]. split; [exact He|].
           exists v'. split; [right; exact Hin | exact Hn].
        -- intros v' [Hv'|Hin]; [injection Hv' as <-; exact Hv | exact (IH v' Hin)].
      * split; [reflexivity|]. exists v. split; [left; reflexivity | exact Hv].
    + rewrite (length_value_or_zero bs None Hbs eq_refl), Z.eqb_refl. cbn [bind].
      destruct (check_vectors_size sm (map (value_or_zero bs) entries) bs what) as [e|u].
      * destruct IH as [He [v' [Hin Hn]]]. split; [exact He|].
        exists v'. split; [right; exact Hin | exact Hn].
      * intros v' [Hv'|Hin]; [discriminate | exact (IH v' Hin)].
Qed.

Lemma server_value_input_spec BitLen sm n (db : list (FieldName * VFieldEntry)) i f :
  0 <= bitsize f ->
  Forall (fun p => Z.of_nat (List.length (snd p)) = n) db ->
  match server_value_input BitLen sm n db i f with
  | inr vi => server_field_ok db i f /\ server_field_shares BitLen db i f vi
  | inl e => ~ server_field_ok db i f /\ (e = out_of_range \/ exists w, e = sm w)
  end.
Proof.
  intros Hb Hcols. pose proof (bitbytes_nonneg _ Hb) as Hbs.
  unfold server_value_input, server_field_ok, server_field_shares. cbv zeta.
  destruct (lookup db i) as [entries|] eqn:Hl.
  2:{ split; [intros [entries [H _]]; discriminate | left; reflexivity]. }
  assert (Hlen : Z.of_nat (List.length entries) = n).
  { rewrite Forall_forall in Hcols. exact (Hcols (i, entries) (lookup_in db i entries Hl)). }
  pose proof (check_vectors_size_values sm (bitbytes (bitsize f))
                ("server input byte vector " ++ i)%string entries Hbs) as Hc.
  revert Hc.
  destruct (check_vectors_size sm (map (value_or_zero (bitbytes (bitsize f))) entries)
              (bitbytes (bitsize f)) ("server input byte vector " ++ i)%string) as [e|u];
    cbn [bind]; intros Hc.
  - destruct Hc as [He [v [Hin Hv]]]. split; [|right; eexists; exact He].
    intros [entries' [He' Hok]]. injection He' as <-.
    exact (Hv (Hok v Hin)).
  - destruct (Z.ltb_spec (Z.of_nat (List.length entries)) n) as [|_]; [lia|].
    unfold hw_vec.
    rewrite !firstn_all2 by (rewrite ?length_map; lia).
    split.
    + exists entries. split; [reflexivity | exact Hc].
    + exists entries. split; [reflexivity|]. split; [reflexivity|]. split; [reflexivity|].
      intros Hd. cbn [hw_share]. rewrite Hd. reflexivity.
Qed.

(** [SELCircuit::set_server_input] on an input accepted by the
    [EpilinkServerInput] constructor (with fewer than [2^32] rows, the
    [uint32_t] of [set_constants]): an empty database ([nvals = 0]) passes
    the constructor but fails the assertion of [set_real_server_input];
    otherwise no row is read out of bounds, the call fails only with
    [std::out_of_range] or the size check, exactly when some configured field
    has no column or a present value of other than [bitbytes(bitsize)] bytes,
    and on success every row gives one lane, with [delta] = 0/1 for
    empty/present, empty entries read as all-zero masks, and the per-row
    Hamming weights for set-similarity fields. *)
Theorem server_input_marshalling BitLen sm c db input :
  make_server_input sm db = inr input -> snvals input < 2 ^ 32 ->
  Forall (fun p => 0 <= bitsize (snd p)) (fields c) ->
  (snvals input = 0 -> set_server_input BitLen sm c input = inl assertion_failed) /\
  (0 < snvals input ->
   match set_server_input BitLen sm c input with
   | inr ins =>
       Forall (fun p => server_field_ok db (fst p) (snd p)) (fields c) /\
       Forall2 (fun p q => fst q = fst p /\
                  server_field_shares BitLen db (fst p) (snd p) (snd q)) (fields c) ins
   | inl e => ~ Forall (fun p => server_field_ok db (fst p) (snd p)) (fields c) /\
              (e = out_of_range \/ exists w, e = sm w)
   end).
Proof.
  intros Hm Hlt Hb.
  pose proof (make_server_input_spec sm db) as Hc. rewrite Hm in Hc.
  destruct Hc as [Hdb [[k [col [rest [_ Hn]]]] Hcols]].
  assert (Hu : uint32 (snvals input) = snvals input)
    by (unfold uint32; apply Z.mod_small; lia).
  unfold set_server_input, set_real_server_input. rewrite Hu, Hdb. split.
  - intros H0. rewrite H0. reflexivity.
  - intros Hpos. destruct (Z.ltb_spec 0 (snvals input)) as [_|]; [|lia]. cbn [negb].
    apply map_result_spec. intros [i f] Hin. rewrite Forall_forall in Hb.
    specialize (Hb _ Hin). cbn [fst snd] in *.
    pose proof (server_value_input_spec BitLen sm (snvals input) db i f Hb Hcols) as H.
    destruct (server_value_input BitLen sm (snvals input) db i f) as [e|vi]; cbn [bind];
      [exact H|].
    destruct H as [Hok Hsh]. split; [exact Hok | split; [reflexivity | exact Hsh]].
Qed.

Definition demo_db : list (FieldName * VFieldEntry) :=
  [("int_1"%string, [Some [222; 173; 190; 239]; None])].

Lemma server_input_marshalling_witness :
  make_server_input invalid_argument demo_db = inr (mkServerInput demo_db 2) /\
  snvals (mkServerInput demo_db 2) < 2 ^ 32 /\
  Forall (fun p => 0 <= bitsize (snd p)) (fields demo_config) /\
  ((snvals (mkServerInput demo_db 2) = 0 ->
    set_server_input 32 invalid_argument demo_config (mkServerInput demo_db 2)
      = inl assertion_failed) /\
   (0 < snvals (mkServerInput demo_db 2) ->
    match set_server_input 32 invalid_argument demo_config (mkServerInput demo_db 2) with
    | inr ins =>
        Forall (fun p => server_field_ok demo_db (fst p) (snd p)) (fields demo_config) /\
        Forall2 (fun p q => fst q = fst p /\
                   server_field_shares 32 demo_db (fst p) (snd p) (snd q))
          (fields demo_config) ins
    | inl e => ~ Forall (fun p => server_field_ok demo_db (fst p) (snd p))
                   (fields demo_config) /\
               (e = out_of_range \/ exists w, e = invalid_argument w)
    end)) /\
  set_server_input 32 invalid_argument demo_config (mkServerInput demo_db 2)
    = inr [("int_1"%string, mkValueInput [[222; 173; 190; 239]; [0; 0; 0; 0]] None [1; 0])].
Proof.
  assert (Hm : make_server_input invalid_argument demo_db = inr (mkServerInput demo_db 2))
    by (vm_compute; reflexivity).
  assert (Hlt : snvals (mkServerInput demo_db 2) < 2 ^ 32) by (simpl; lia).
  assert (Hb : Forall (fun p => 0 <= bitsize (snd p)) (fields demo_config))
    by (constructor; [simpl; lia | constructor]).
  split; [exact Hm|]. split; [exact Hlt|]. split; [exact Hb|]. split.
  - exact (server_input_marshalling 32 invalid_argument demo_config demo_db _ Hm Hlt Hb).
  - vm_compute. reflexivity.
Defined.

(** ** Engine: running without a built circuit, and [LocalServer::run_server] *)

(** On an engine whose circuit is not built (a new or reset engine), both
    [run_as_client] and [run_as_server] throw [runtime_error] from their
    implicit setup phase, whatever the input, before the circuit is run. *)
Theorem run_requires_build (CI SI O : Type) (exc : CI -> result O) (exs : SI -> result O)
    e ci si :
  is_built e = false -> engine_inv e ->
  run_as_client CI O exc e ci = inl (runtime_error msg_not_built) /\
  run_as_server SI O exs e si = inl (runtime_error msg_not_built).
Proof.
  destruct e as [b s]; cbn [is_built]. intros -> Hinv.
  unfold engine_inv in Hinv; cbn [is_built is_setup] in Hinv.
  destruct s; [discriminate (Hinv eq_refl)|]. split; reflexivity.
Qed.

Lemma run_requires_build_witness :
  is_built new_engine = false /\ engine_inv new_engine /\
  run_as_client unit unit (fun _ => ret tt) new_engine tt
    = inl (runtime_error msg_not_built) /\
  run_as_server unit unit (fun _ => ret tt) new_engine tt
    = inl (runtime_error msg_not_built).
Proof.
  assert (Hb : is_built new_engine = false) by reflexivity.
  assert (Hi : engine_inv new_engine) by (unfold engine_inv; discriminate).
  split; [exact Hb | split; [exact Hi|]].
  exact (run_requires_build unit unit unit (fun _ => ret tt) (fun _ => ret tt) new_engine tt tt
           Hb Hi).
Defined.

(** [LocalServer::run_server] from any engine state: the build and the
    explicit setup phase never fail, so the call fails exactly when the
    [EpilinkServerInput] constructor or the circuit fails (with their
    error), and on success it returns the circuit's result with the engine
    reset to the state of a new engine. *)
Theorem local_run_server sm O exs e data :
  run_server sm O exs e data =
  match make_server_input sm data with
  | inl err => inl err
  | inr input =>
      match exs input with
      | inl err => inl err
      | inr o => inr (new_engine, o)
      end
  end.
Proof.
  destruct data as [|[k col] rest]; [reflexivity|].
  unfold run_server. cbv zeta. unfold run_setup_phase, build_circuit. cbn [is_built negb bind].
  destruct (make_server_input sm ((k, col) :: rest)) as [err|input]; cbn [bind]; [reflexivity|].
  unfold run_as_server, implicit_setup. cbn [is_setup negb bind].
  unfold run_circuit. destruct (exs input) as [err|o]; reflexivity.
Qed.

(** ** Re-planning the precisions *)

Lemma with_precisions_twice c a b a' b' :
  with_precisions (with_precisions c a b) a' b' = with_precisions c a' b'.
Proof. destruct c; reflexivity. Qed.

Lemma replan_precisions_core c a b c' :
  set_precisions c a b = inr c' ->
  (forall a' b', set_precisions c' a' b' = set_precisions c a' b') /\
  set_ideal_precision c' = set_ideal_precision c.
Proof.
  unfold set_precisions at 1. destruct (_ >? _); [discriminate|].
  intros H. injection H as <-.
  assert (Hsp : forall a' b', set_precisions (with_precisions c a b) a' b' = set_precisions c a' b').
  { intros a' b'. unfold set_precisions. rewrite with_precisions_twice.
    destruct c; reflexivity. }
  split; [exact Hsp|].
  unfold set_ideal_precision. rewrite !Hsp. destruct c; reflexivity.
Qed.

(** The precisions can be planned again: after a successful
    [set_precisions], a later [set_precisions] or [set_ideal_precision] acts
    exactly as on the configuration before (the check only reads [nfields]
    and [bitlen], which are never changed). *)
Theorem replan_precisions c a b c' :
  set_precisions c a b = inr c' ->
  (forall a' b', set_precisions c' a' b' = set_precisions c a' b') /\
  set_ideal_precision c' = set_ideal_precision c.
Proof. exact (replan_precisions_core c a b c'). Qed.

Lemma replan_precisions_witness :
  set_precisions demo_config 14 9 = inr (with_precisions demo_config 14 9) /\
  ((forall a' b', set_precisions (with_precisions demo_config 14 9) a' b' =
                  set_precisions demo_config a' b') /\
   set_ideal_precision (with_precisions demo_config 14 9) = set_ideal_precision demo_config).
Proof.
  assert (H : set_precisions demo_config 14 9 = inr (with_precisions demo_config 14 9))
    by (vm_compute; reflexivity).
  split; [exact H | exact (replan_precisions demo_config 14 9 _ H)].
Defined.

(** [set_ideal_precision] is idempotent: applied to its own result it gives
    that result again. *)
Theorem set_ideal_precision_idempotent c c' :
  set_ideal_precision c = inr c' -> set_ideal_precision c' = inr c'.
Proof.
  intros H. pose proof H as H0. unfold set_ideal_precision in H.
  destruct (_ mod 3 =? 1); [|destruct (_ mod 3 =? 2)];
    destruct (replan_precisions_core _ _ _ _ H) as [_ Hi]; rewrite Hi; exact H0.
Qed.

Lemma set_ideal_precision_idempotent_witness :
  set_ideal_precision demo_config = inr (with_precisions demo_config 10 11) /\
  set_ideal_precision (with_precisions demo_config 10 11) = inr (with_precisions demo_config 10 11).
Proof.
  assert (H : set_ideal_precision demo_config = inr (with_precisions demo_config 10 11))
    by (vm_compute; reflexivity).
  split; [exact H | exact (set_ideal_precision_idempotent demo_config _ H)].
Defined.

(** ** Safe mode without wrap-around *)

(** When nothing wraps in [size_t] ([hw_size(max_bm_size) <= 15], [n^2] and
    [bitlen] are [size_t] values and [ceil_log2(n^2) + dice_prec <= bitlen]),
    the precisions the constructor plans keep the bit budget and leave at
    most one bit of [bitlen] unused, the one lost in [/ 2]. *)
Theorem safe_mode_budget_nowrap fs groups t t' mm bl c :
  make_config fs groups t t' mm bl = inr c ->
  hw_size (max_bm_size fs) <= 15 ->
  SizeT.valid bl ->
  nfields c * nfields c < SizeT.modulus ->
  ceil_log2 (nfields c * nfields c) + dice_prec c <= bitlen c ->
  budget c /\
  bitlen c - 1 <= dice_prec c + 2 * weight_prec c + ceil_log2 (nfields c * nfields c).
Proof.
  intros H Hh Hbl Hnn Hfit.
  destruct (make_config_inv _ _ _ _ _ _ _ H) as [_ ->].
  unfold budget. cbn [nfields dice_prec weight_prec bitlen] in *.
  set (nf := Z.of_nat (List.length fs)) in *.
  assert (Hh1 : 1 <= hw_size (max_bm_size fs)) by (unfold hw_size, ceil_log2_min1; lia).
  pose proof SizeT_modulus_pos as HM.
  assert (HM14 : 14 < SizeT.modulus) by (vm_compute; reflexivity).
  assert (Hnf : 0 <= nf) by (unfold nf; lia).
  assert (Hdp : default_dice_prec fs = 15 - hw_size (max_bm_size fs)).
  { unfold default_dice_prec, SizeT.sub. apply SizeT_wrap_small. lia. }
  rewrite Hdp in *.
  assert (HL : nfields_bits nf = ceil_log2 (nf * nf)).
  { unfold nfields_bits, SizeT.mul. rewrite SizeT_wrap_small by nia. reflexivity. }
  unfold default_weight_prec. rewrite HL.
  pose proof (ceil_log2_nonneg (nf * nf)).
  set (L := ceil_log2 (nf * nf)) in *.
  set (dp := 15 - hw_size (max_bm_size fs)) in *.
  unfold SizeT.valid in Hbl.
  assert (Hs1 : SizeT.sub bl L = bl - L) by (unfold SizeT.sub; apply SizeT_wrap_small; lia).
  rewrite Hs1.
  assert (Hs2 : SizeT.sub (bl - L) dp = bl - L - dp)
    by (unfold SizeT.sub; apply SizeT_wrap_small; lia).
  rewrite Hs2.
  pose proof (Z.div_mod (bl - L - dp) 2 ltac:(lia)).
  pose proof (Z.mod_pos_bound (bl - L - dp) 2 ltac:(lia)).
  lia.
Qed.

Lemma safe_mode_budget_nowrap_witness :
  make_config int_only [] (9 # 10) (7 # 10) false 32 = inr demo_config /\
  hw_size (max_bm_size int_only) <= 15 /\ SizeT.valid 32 /\
  nfields demo_config * nfields demo_config < SizeT.modulus /\
  ceil_log2 (nfields demo_config * nfields demo_config) + dice_prec demo_config
    <= bitlen demo_config /\
  (budget demo_config /\
   bitlen demo_config - 1 <= dice_prec demo_config + 2 * weight_prec demo_config +
     ceil_log2 (nfields demo_config * nfields demo_config)).
Proof.
  assert (H : make_config int_only [] (9 # 10) (7 # 10) false 32 = inr demo_config)
    by (vm_compute; reflexivity).
  assert (H1 : hw_size (max_bm_size int_only) <= 15) by (vm_compute; congruence).
  assert (H2 : SizeT.valid 32) by (unfold SizeT.valid, SizeT.modulus, SizeT.width; lia).
  assert (H3 : nfields demo_config * nfields demo_config < SizeT.modulus)
    by (unfold SizeT.modulus, SizeT.width; simpl; lia).
  assert (H4 : ceil_log2 (nfields demo_config * nfields demo_config) + dice_prec demo_config
                 <= bitlen demo_config) by (vm_compute; congruence).
  split; [exact H|]. split; [exact H1|]. split; [exact H2|]. split; [exact H3|].
  split; [exact H4|].
  exact (safe_mode_budget_nowrap int_only [] (9 # 10) (7 # 10) false 32 demo_config
           H H1 H2 H3 H4).
Defined.

(** The assertion of [EpilinkConfig]'s constructor never fires for a
    [bitlen] of at least 1: the constructor fails exactly when the
    exchange-group checks throw, and otherwise stores the fields, the groups
    and the safe-mode precisions. *)
Theorem constructor_outcome fs groups t t' mm bl :
  1 <= bl < SizeT.modulus ->
  make_config fs groups t t' mm bl =
  match check_exchange_groups fs [] groups with
  | inl e => inl e
  | inr _ =>
      let nf := Z.of_nat (List.length fs) in
      inr (mkConfig fs groups t t' mm bl nf (max_element_weight fs) (default_dice_prec fs)
             (default_weight_prec bl nf (default_dice_prec fs)))
  end.
Proof.
  intros Hbl. unfold make_config. rewrite precision_assert_holds by exact Hbl.
  cbn [negb]. destruct (check_exchange_groups fs [] groups); reflexivity.
Qed.

Lemma constructor_outcome_witness :
  1 <= 32 < SizeT.modulus /\
  make_config int_only [] (9 # 10) (7 # 10) false 32 =
  match check_exchange_groups int_only [] [] with
  | inl e => inl e
  | inr _ =>
      let nf := Z.of_nat (List.length int_only) in
      inr (mkConfig int_only [] (9 # 10) (7 # 10) false 32 nf (max_element_weight int_only)
             (default_dice_prec int_only)
             (default_weight_prec 32 nf (default_dice_prec int_only)))
  end.
Proof.
  assert (H : 1 <= 32 < SizeT.modulus) by (unfold SizeT.modulus, SizeT.width; lia).
  split; [exact H | exact (constructor_outcome int_only [] (9 # 10) (7 # 10) false 32 H)].
Defined.
